(** * netqasm: the pre-subroutine inspector and the qubit handle

    A shallow embedding of

    - [src/tests/test_builder.py]: [PatternWildcard], [PatternMatcher] and
      [PreSubroutineInspector];
    - [src/netqasm/sdk/qubit.py]: the [Qubit] handle and its life cycle.

    Python objects that are shared and mutated (the qubit handles, which the
    builder keeps in its [active_qubits] list) live in an explicit store and
    are referred to by their position in it.  Exceptions are values of
    [Exn]; a method that may raise returns [Exn + _]. *)

From stdpp Require Import base decidable option list strings functions pretty.

(** ** Exceptions *)

Inductive Exn :=
| AssertionError (msg : string)
| IndexError
| QubitNotActiveError (qubit_id : nat)
| DanglingHandle.

(** [DanglingHandle] is not a Python exception: it is the answer to a
    handle that refers to no object of the store, which no handle made by
    [Qubit.__init__] ever does. *)

(** ** The IR items the inspector looks at ([netqasm.lang.ir]) *)

(** Modelled from the spec: the opcode enumeration [GenericInstr] of
    [netqasm.lang.ir] is imported by both source files and not part of
    them; these are the opcodes of section 3. *)
Module GenericInstr.
Inductive t :=
| QALLOC | QFREE | INIT | MEAS
| X | Y | Z | H | S | T | K
| ROT_X | ROT_Y | ROT_Z
| CNOT | CPHASE
| SET | ADD | STORE | LOAD | ARRAY
| CREATE_EPR | RECV_EPR | WAIT_ALL
| BEQ | BNE | BEZ | BNZ | JMP
| RET_REG | RET_ARR.

#[global] Instance eq_dec : EqDecision t.
Proof. solve_decision. Defined.
End GenericInstr.

(** Modelled from the spec: operand values (section 3): an immediate, a
    register of some role, an array handle, an array cell, a label. *)
Inductive RegRole := RQ | RR | RC.

Inductive Operand :=
| Imm (n : nat)
| Reg (role : RegRole) (index : nat)
| Address (address : nat)
| ArrayEntry (address index : nat)
| LabelRef (name : string).

Record ICmd := mkICmd {
  instruction : GenericInstr.t;
  operands : list Operand
}.

Record BranchLabel := mkBranchLabel { name : string }.

(** [Union[ICmd, BranchLabel]] *)
Inductive Cmd :=
| Instr (c : ICmd)
| Label (l : BranchLabel).

(** ** [PatternWildcard] and patterns *)

Inductive PatternWildcard := ANY_ONE | ANY_ZERO_OR_MORE | BRANCH_LABEL.

(** [Union[GenericInstr, PatternWildcard]] *)
Inductive Pat :=
| PInstr (i : GenericInstr.t)
| PWild (w : PatternWildcard).

(** ** [class PatternMatcher] *)

Record PatternMatcher := mkPatternMatcher {
  _commands : list Cmd;
  _pattern : list Pat;
  _pat_len : nat;
  _pat_idx : nat;
  _cmd_idx : nat;
  _match_start : option nat
}.

(** [PatternMatcher.__init__] *)
Definition PatternMatcher_init (commands : list Cmd) (pattern : list Pat)
  : PatternMatcher :=
  {| _commands := commands;
     _pattern := pattern;
     _pat_len := length pattern;
     _pat_idx := 0;
     _cmd_idx := 0;
     _match_start := None |}.

Definition set_pat_idx (m : PatternMatcher) (i : nat) : PatternMatcher :=
  {| _commands := _commands m; _pattern := _pattern m;
     _pat_len := _pat_len m; _pat_idx := i;
     _cmd_idx := _cmd_idx m; _match_start := _match_start m |}.

Definition set_cmd_idx (m : PatternMatcher) (i : nat) : PatternMatcher :=
  {| _commands := _commands m; _pattern := _pattern m;
     _pat_len := _pat_len m; _pat_idx := _pat_idx m;
     _cmd_idx := i; _match_start := _match_start m |}.

Definition set_match_start (m : PatternMatcher) (s : option nat)
  : PatternMatcher :=
  {| _commands := _commands m; _pattern := _pattern m;
     _pat_len := _pat_len m; _pat_idx := _pat_idx m;
     _cmd_idx := _cmd_idx m; _match_start := s |}.

Definition _record_match (m : PatternMatcher) : PatternMatcher :=
  let m1 := match _match_start m with
            | None => set_match_start m (Some (_cmd_idx m))
            | Some _ => m
            end in
  set_pat_idx m1 (_pat_idx m1 + 1).

Definition _reset_match (m : PatternMatcher) : PatternMatcher :=
  set_pat_idx (set_match_start m None) 0.

Definition _match_any_one (m : PatternMatcher) : PatternMatcher :=
  _record_match m.

(** [self._commands[self._cmd_idx]]: a list subscript out of range raises. *)
Definition subscript {A} (l : list A) (i : nat) : Exn + A :=
  match l !! i with
  | Some x => inr x
  | None => inl IndexError
  end.

Definition _match_branch_label (m : PatternMatcher) : Exn + PatternMatcher :=
  match subscript (_commands m) (_cmd_idx m) with
  | inl e => inl e
  | inr (Label _) => inr (_record_match m)
  | inr (Instr _) => inr (_reset_match m)
  end.

Definition _match_instr (m : PatternMatcher) : Exn + PatternMatcher :=
  match subscript (_pattern m) (_pat_idx m) with
  | inl e => inl e
  | inr (PWild _) => inl (AssertionError "")
  | inr (PInstr pat) =>
    match subscript (_commands m) (_cmd_idx m) with
    | inl e => inl e
    | inr (Instr cmd) =>
      if decide (instruction cmd = pat) then inr (_record_match m)
      else inr (_reset_match m)
    | inr (Label _) => inr (_reset_match m)
    end
  end.

Definition _match_any_zero_or_more (m : PatternMatcher)
  : Exn + PatternMatcher :=
  if negb (bool_decide (0 < _pat_idx m)) then
    inl (AssertionError "wildcard at start of pattern not allowed")
  else if negb (bool_decide (_pat_idx m + 1 < _pat_len m)) then
    inl (AssertionError "wildcard at end of pattern not allowed")
  else
    match subscript (_pattern m) (_pat_idx m + 1) with
    | inl e => inl e
    | inr next_pat =>
      match next_pat with
      | PWild ANY_ONE | PWild ANY_ZERO_OR_MORE =>
        inl (AssertionError
               "wildcard directly after ANY_ZERO_OR_MORE not allowed")
      | PWild BRANCH_LABEL =>
        match subscript (_commands m) (_cmd_idx m) with
        | inl e => inl e
        | inr (Label _) => inr (set_pat_idx m (_pat_idx m + 2))
        | inr (Instr _) => inr m
        end
      | PInstr next_instr =>
        match subscript (_commands m) (_cmd_idx m) with
        | inl e => inl e
        | inr (Instr cmd) =>
          if decide (instruction cmd = next_instr)
          then inr (set_pat_idx m (_pat_idx m + 2))
          else inr m
        | inr (Label _) => inr m
        end
      end
    end.

(** One iteration of the [while True] of [PatternMatcher.match]: it
    returns, raises, or falls through to [self._cmd_idx += 1]. *)
Inductive Step :=
| Return (b : bool)
| Raise (e : Exn)
| Continue (m : PatternMatcher).

Definition match_body (m : PatternMatcher) : Step :=
  if decide (_pat_idx m = _pat_len m) then Return true
  else if decide (_cmd_idx m = length (_commands m)) then Return false
  else
    match subscript (_pattern m) (_pat_idx m) with
    | inl e => Raise e
    | inr curr_pat =>
      let r := match curr_pat with
               | PWild ANY_ONE => inr (_match_any_one m)
               | PWild BRANCH_LABEL => _match_branch_label m
               | PInstr _ => _match_instr m
               | PWild ANY_ZERO_OR_MORE => _match_any_zero_or_more m
               end in
      match r with
      | inl e => Raise e
      | inr m' => Continue (set_cmd_idx m' (_cmd_idx m' + 1))
      end
    end.

(** The loop, run for at most [fuel] iterations; [None] when the fuel is
    used up before the loop is left. *)
Fixpoint match_loop (fuel : nat) (m : PatternMatcher) : option (Exn + bool) :=
  match fuel with
  | 0 => None
  | S fuel' =>
    match match_body m with
    | Return b => Some (inr b)
    | Raise e => Some (inl e)
    | Continue m' => match_loop fuel' m'
    end
  end.

(** [PatternMatcher.match], with one iteration per command left to look at
    and one more to leave the loop. *)
Definition PatternMatcher_match (m : PatternMatcher) : option (Exn + bool) :=
  match_loop (S (length (_commands m) - _cmd_idx m)) m.

(** ** [class PreSubroutineInspector] *)

(** Modelled from the spec: of [PreSubroutine] ([netqasm.lang.ir]) the
    inspector reads [commands] only. *)
Record PreSubroutine := mkPreSubroutine { commands : list Cmd }.

Record PreSubroutineInspector := mkInspector { _subroutine : PreSubroutine }.

Fixpoint contains_instr_loop (cmds : list Cmd) (instr_type : GenericInstr.t)
  : bool :=
  match cmds with
  | [] => false
  | cmd :: rest =>
    let cmd_instr_type :=
      match cmd with
      | Instr c => Some (instruction c)
      | Label _ => None
      end in
    if decide (cmd_instr_type = Some instr_type) then true
    else contains_instr_loop rest instr_type
  end.

Definition contains_instr (self : PreSubroutineInspector)
  (instr_type : GenericInstr.t) : bool :=
  contains_instr_loop (commands (_subroutine self)) instr_type.

Definition match_pattern (self : PreSubroutineInspector) (pattern : list Pat)
  : option (Exn + bool) :=
  PatternMatcher_match
    (PatternMatcher_init (commands (_subroutine self)) pattern).

(** ** The reference matcher, after the words of section 6

    A pattern element other than [ANY_ZERO_OR_MORE] stands for one item:
    a literal opcode for an [ICmd] with that opcode, [ANY_ONE] for any
    item, [BRANCH_LABEL] for any label.  [ANY_ZERO_OR_MORE] skips forward
    to the first item that the next pattern element matches.  A pattern is
    found in a command list when it matches consecutively from some
    offset. *)

Definition item_matches (p : Pat) (c : Cmd) : bool :=
  match p, c with
  | PInstr i, Instr cmd => bool_decide (instruction cmd = i)
  | PInstr _, Label _ => false
  | PWild ANY_ONE, _ => true
  | PWild BRANCH_LABEL, Label _ => true
  | PWild BRANCH_LABEL, Instr _ => false
  | PWild ANY_ZERO_OR_MORE, _ => false
  end.

Fixpoint skip_to (p : Pat) (cmds : list Cmd) : option (list Cmd) :=
  match cmds with
  | [] => None
  | c :: rest => if item_matches p c then Some rest else skip_to p rest
  end.

Fixpoint spec_match_here (pattern : list Pat) (cmds : list Cmd) : bool :=
  match pattern with
  | [] => true
  | PWild ANY_ZERO_OR_MORE :: [] => true
  | PWild ANY_ZERO_OR_MORE :: next_pat :: pattern' =>
    match skip_to next_pat cmds with
    | Some rest => spec_match_here pattern' rest
    | None => false
    end
  | p :: pattern' =>
    match cmds with
    | [] => false
    | c :: rest => item_matches p c && spec_match_here pattern' rest
    end
  end.

Fixpoint spec_match (pattern : list Pat) (cmds : list Cmd) : bool :=
  spec_match_here pattern cmds ||
  match cmds with
  | [] => false
  | _ :: rest => spec_match pattern rest
  end.

(** ** The loop of [PatternMatcher.match] seen on lists

    [advance pattern i c] is the pattern index after one iteration that
    starts at pattern index [i] and looks at command [c]; [scan] iterates
    it over the commands that are left.  [match_loop_scan] below shows
    that this is what the loop computes. *)

Definition advance (pattern : list Pat) (i : nat) (c : Cmd) : Exn + nat :=
  match pattern !! i with
  | None => inl IndexError
  | Some (PWild ANY_ZERO_OR_MORE) =>
    if negb (bool_decide (0 < i)) then
      inl (AssertionError "wildcard at start of pattern not allowed")
    else if negb (bool_decide (i + 1 < length pattern)) then
      inl (AssertionError "wildcard at end of pattern not allowed")
    else
      match pattern !! (i + 1) with
      | None => inl IndexError
      | Some (PWild ANY_ONE) | Some (PWild ANY_ZERO_OR_MORE) =>
        inl (AssertionError
               "wildcard directly after ANY_ZERO_OR_MORE not allowed")
      | Some next_pat => inr (if item_matches next_pat c then i + 2 else i)
      end
  | Some p => inr (if item_matches p c then i + 1 else 0)
  end.

Fixpoint scan (pattern : list Pat) (i : nat) (cmds : list Cmd) : Exn + bool :=
  if decide (i = length pattern) then inr true
  else
    match cmds with
    | [] => inr false
    | c :: rest =>
      match advance pattern i c with
      | inl e => inl e
      | inr i' => scan pattern i' rest
      end
    end.

(** An [ANY_ZERO_OR_MORE] that the matcher refuses: first in the pattern,
    last in the pattern, or directly followed by [ANY_ONE] or
    [ANY_ZERO_OR_MORE]. *)
Definition refused_wildcard_at (pattern : list Pat) (i : nat) : bool :=
  match pattern !! i with
  | Some (PWild ANY_ZERO_OR_MORE) =>
    bool_decide (i = 0) ||
    match pattern !! (i + 1) with
    | None | Some (PWild ANY_ONE) | Some (PWild ANY_ZERO_OR_MORE) => true
    | Some _ => false
    end
  | _ => false
  end.

(** The pattern index with which the loop, started at pattern index [i],
    enters the iteration that follows the commands [cmds]; [None] when it
    has left before. *)
Fixpoint index_after (pattern : list Pat) (i : nat) (cmds : list Cmd)
  : option nat :=
  match cmds with
  | [] => Some i
  | c :: rest =>
    if decide (i = length pattern) then None
    else
      match advance pattern i c with
      | inl _ => None
      | inr i' => index_after pattern i' rest
      end
  end.

Definition ins (i : GenericInstr.t) : Cmd := Instr (mkICmd i []).

Definition inspector (cmds : list Cmd) : PreSubroutineInspector :=
  mkInspector (mkPreSubroutine cmds).

(* ================================================================= *)
(** * [netqasm/sdk/qubit.py] *)

(** ** The builder behind a connection

    [qubit.py] reaches the builder as [self._conn._builder]; it reads and
    writes [active_qubits] and calls the [add_..._commands] methods with
    the integer [qubit_id], never with the handle. *)

(** Modelled from the spec: futures (section 3) of [netqasm.sdk.futures],
    which is not among the sources: a cell of an array, or a register. *)
Inductive AnyFuture :=
| Future (address index : nat)
| RegFuture (reg : nat).

(** Modelled from the spec: the entanglement information
    [LinkLayerOKTypeK] of [netqasm.qlink_compat], of which [qubit.py]
    reads [remote_node_id]. *)
Record LinkLayerOKTypeK := mkEntInfo { remote_node_id : nat }.

(** Modelled from the spec: the state of the builder
    ([netqasm.sdk.builder] is not among the sources): the pending
    pre-subroutine, the active-qubit list, and the counters of
    section 4.1.  [active_qubits] holds handles, the references to the
    [Qubit] objects. *)
Record Builder := mkBuilder {
  pending_commands : list Cmd;
  active_qubits : list nat;
  next_qubit_id : nat;
  next_reg_index : nat;
  next_array_address : nat;
  next_label_seq : nat
}.

Definition empty_builder : Builder :=
  {| pending_commands := []; active_qubits := [];
     next_qubit_id := 0; next_reg_index := 0; next_array_address := 0;
     next_label_seq := 0 |}.

Definition emit (cmds : list Cmd) (b : Builder) : Builder :=
  {| pending_commands := pending_commands b ++ cmds;
     active_qubits := active_qubits b;
     next_qubit_id := next_qubit_id b;
     next_reg_index := next_reg_index b;
     next_array_address := next_array_address b;
     next_label_seq := next_label_seq b |}.

Definition set_active_qubits (l : list nat) (b : Builder) : Builder :=
  {| pending_commands := pending_commands b;
     active_qubits := l;
     next_qubit_id := next_qubit_id b;
     next_reg_index := next_reg_index b;
     next_array_address := next_array_address b;
     next_label_seq := next_label_seq b |}.

Definition icmd (i : GenericInstr.t) (ops : list Operand) : Cmd :=
  Instr (mkICmd i ops).

(** Modelled from the spec: [new_qubit_id()] of the builder, a fresh
    virtual id from the counter [next_qubit_id] (sections 4.1, 4.2). *)
Definition new_qubit_id (b : Builder) : nat * Builder :=
  (next_qubit_id b,
   {| pending_commands := pending_commands b;
      active_qubits := active_qubits b;
      next_qubit_id := next_qubit_id b + 1;
      next_reg_index := next_reg_index b;
      next_array_address := next_array_address b;
      next_label_seq := next_label_seq b |}).

(** Modelled from the spec: a fresh register index (section 4.1). *)
Definition new_register (b : Builder) : nat * Builder :=
  (next_reg_index b,
   {| pending_commands := pending_commands b;
      active_qubits := active_qubits b;
      next_qubit_id := next_qubit_id b;
      next_reg_index := next_reg_index b + 1;
      next_array_address := next_array_address b;
      next_label_seq := next_label_seq b |}).

(** Modelled from the spec: a fresh label [<KIND><seq>] (section 4.1). *)
Definition new_label (kind : string) (b : Builder) : string * Builder :=
  (kind +:+ pretty (next_label_seq b),
   {| pending_commands := pending_commands b;
      active_qubits := active_qubits b;
      next_qubit_id := next_qubit_id b;
      next_reg_index := next_reg_index b;
      next_array_address := next_array_address b;
      next_label_seq := next_label_seq b + 1 |}).

(** Modelled from the spec: [new_array(length)] of the builder allocates an
    array address and emits [ARRAY <length> @addr] (section 4.2). *)
Definition new_array (len : nat) (b : Builder) : nat * Builder :=
  (next_array_address b,
   {| pending_commands :=
        pending_commands b
        ++ [icmd GenericInstr.ARRAY [Imm len; Address (next_array_address b)]];
      active_qubits := active_qubits b;
      next_qubit_id := next_qubit_id b;
      next_reg_index := next_reg_index b;
      next_array_address := next_array_address b + 1;
      next_label_seq := next_label_seq b |}).

(** Modelled from the spec: [add_new_qubit_commands(id)] of the builder
    emits [QALLOC Q<id>; INIT Q<id>] and the [SET] that binds the [Q]
    register to the id (sections 3 and 4.2). *)
Definition add_new_qubit_commands (qubit_id : nat) (b : Builder) : Builder :=
  emit [icmd GenericInstr.QALLOC [Reg RQ qubit_id];
        icmd GenericInstr.INIT [Reg RQ qubit_id];
        icmd GenericInstr.SET [Reg RQ qubit_id; Imm qubit_id]] b.

(** Modelled from the spec: [add_single_qubit_commands(instr, id)] of the
    builder emits the [SET] of the operand register, then the gate
    (section 4.2). *)
Definition add_single_qubit_commands (instr : GenericInstr.t)
  (qubit_id : nat) (b : Builder) : Builder :=
  emit [icmd GenericInstr.SET [Reg RQ qubit_id; Imm qubit_id];
        icmd instr [Reg RQ qubit_id]] b.

(** Modelled from the spec: [add_two_qubit_commands(instr, c, t)] of the
    builder emits the [SET]s of both operand registers, then the gate
    (section 4.2). *)
Definition add_two_qubit_commands (instr : GenericInstr.t)
  (control_qubit_id target_qubit_id : nat) (b : Builder) : Builder :=
  emit [icmd GenericInstr.SET [Reg RQ control_qubit_id; Imm control_qubit_id];
        icmd GenericInstr.SET [Reg RQ target_qubit_id; Imm target_qubit_id];
        icmd instr [Reg RQ control_qubit_id; Reg RQ target_qubit_id]] b.

(** Modelled from the spec: [add_single_qubit_rotation_commands] of the
    builder for [angle = None]: one rotation with the immediates [n] and
    [d] (section 4.2).  The lowering of a floating-point [angle] is left
    out. *)
Definition add_single_qubit_rotation_commands (instruction : GenericInstr.t)
  (virtual_qubit_id n d : nat) (b : Builder) : Builder :=
  emit [icmd GenericInstr.SET [Reg RQ virtual_qubit_id; Imm virtual_qubit_id];
        icmd instruction [Reg RQ virtual_qubit_id; Imm n; Imm d]] b.

Definition future_operand (future : AnyFuture) : Operand :=
  match future with
  | Future address index => ArrayEntry address index
  | RegFuture reg => Reg RR reg
  end.

(** Modelled from the spec: [add_measure_commands(id, future, inplace)] of
    the builder.  Section 4.2 names its instructions: [MEAS Q<id>] into an
    outcome register, a [STORE] into what backs the future and, unless
    [inplace], [QFREE Q<id>].  Their order is the one that the assertion
    of [test_futures] ([src/tests/test_builder.py], lines 318 to 332) and
    scenario S3 of section 8 demand of the subroutine built by
    [q.measure()]: [MEAS], [QFREE], [STORE].  The theorems on the qubit
    handle use of this function only that it appends instructions to the
    pending subroutine and leaves the active-qubit list alone; what the
    sources fix of the order of its instructions is proved apart from it,
    from the assertion of [test_futures] alone. *)
Definition add_measure_commands (qubit_id : nat) (future : AnyFuture)
  (inplace : bool) (b : Builder) : Builder :=
  let (out, b1) := new_register b in
  emit ([icmd GenericInstr.MEAS [Reg RQ qubit_id; Reg RR out]]
        ++ (if inplace then []
            else [icmd GenericInstr.QFREE [Reg RQ qubit_id]])
        ++ [icmd GenericInstr.STORE [Reg RR out; future_operand future]]) b1.

(** The order that the sentence of section 4.2 gives, kept for comparison
    with [add_measure_commands]: [MEAS], [STORE], then [QFREE]. *)
Definition add_measure_commands_sec42 (qubit_id : nat) (future : AnyFuture)
  (inplace : bool) (b : Builder) : Builder :=
  let (out, b1) := new_register b in
  emit ([icmd GenericInstr.MEAS [Reg RQ qubit_id; Reg RR out]]
        ++ [icmd GenericInstr.STORE [Reg RR out; future_operand future]]
        ++ (if inplace then []
            else [icmd GenericInstr.QFREE [Reg RQ qubit_id]])) b1.

(** Modelled from the spec: [add_init_qubit_commands(id)] of the builder
    emits [INIT] (section 4.2). *)
Definition add_init_qubit_commands (qubit_id : nat) (b : Builder) : Builder :=
  emit [icmd GenericInstr.INIT [Reg RQ qubit_id]] b.

(** Modelled from the spec: [add_qfree_commands(id)] of the builder emits
    [QFREE] (section 4.2). *)
Definition add_qfree_commands (qubit_id : nat) (b : Builder) : Builder :=
  emit [icmd GenericInstr.QFREE [Reg RQ qubit_id]] b.

(** ** Objects and the store *)

(** The fields of a [Qubit] object.  [_conn] is a reference to the
    connection. *)
Record Qubit := mkQubit {
  _conn : nat;
  _qubit_id : nat;
  _active : bool;
  _ent_info : option LinkLayerOKTypeK;
  _remote_ent_node : option string
}.

(** The [Qubit] objects, each at its handle, and the builder of every
    connection. *)
Record World := mkWorld {
  qubits : list Qubit;
  builders : nat -> Builder
}.

Definition empty_world : World :=
  {| qubits := []; builders := fun _ => empty_builder |}.

(** A method runs in a world and ends with a value or an exception, in a
    world. *)
Definition M (A : Type) : Type := World -> (Exn + A) * World.

#[global] Instance M_ret : MRet M := fun A a w => (inr a, w).

#[global] Instance M_bind : MBind M := fun A B k m w =>
  match m w with
  | (inl e, w') => (inl e, w')
  | (inr a, w') => k a w'
  end.

Definition raise {A} (e : Exn) : M A := fun w => (inl e, w).

Definition get_qubit (self : nat) : M Qubit := fun w =>
  match qubits w !! self with
  | Some obj => (inr obj, w)
  | None => (inl DanglingHandle, w)
  end.

Definition put_qubit (self : nat) (obj : Qubit) : M unit := fun w =>
  (inr (), {| qubits := <[self := obj]> (qubits w); builders := builders w |}).

Definition alloc_qubit (obj : Qubit) : M nat := fun w =>
  (inr (length (qubits w)),
   {| qubits := qubits w ++ [obj]; builders := builders w |}).

Definition get_builder (conn : nat) : M Builder := fun w =>
  (inr (builders w conn), w).

Definition put_builder (conn : nat) (b : Builder) : M unit := fun w =>
  (inr (), {| qubits := qubits w; builders := <[conn := b]> (builders w) |}).

(** [self._conn._builder.f(...)] for a builder method [f] that returns
    nothing. *)
Definition builder_do (conn : nat) (f : Builder -> Builder) : M unit :=
  b ← get_builder conn; put_builder conn (f b).

(** ... and for one that returns a value. *)
Definition builder_call {A} (conn : nat) (f : Builder -> A * Builder) : M A :=
  b ← get_builder conn;
  let (a, b') := f b in
  put_builder conn b';; mret a.

Definition set_active_field (obj : Qubit) (active : bool) : Qubit :=
  {| _conn := _conn obj; _qubit_id := _qubit_id obj; _active := active;
     _ent_info := _ent_info obj; _remote_ent_node := _remote_ent_node obj |}.

Definition set_qubit_id_field (obj : Qubit) (qubit_id : nat) : Qubit :=
  {| _conn := _conn obj; _qubit_id := qubit_id; _active := _active obj;
     _ent_info := _ent_info obj; _remote_ent_node := _remote_ent_node obj |}.

(** [l.remove(x)] for an [x] in [l]: the first occurrence goes. *)
Fixpoint list_remove (x : nat) (l : list nat) : list nat :=
  match l with
  | [] => []
  | y :: l' => if decide (y = x) then l' else y :: list_remove x l'
  end.

(** ** [class Qubit] *)

Module Qubit.

Definition _activate (self : nat) : M unit :=
  obj ← get_qubit self;
  put_qubit self (set_active_field obj true);;
  b ← get_builder (_conn obj);
  if negb (bool_decide (self ∈ active_qubits b)) then
    put_builder (_conn obj) (set_active_qubits (active_qubits b ++ [self]) b)
  else mret ().

Definition _deactivate (self : nat) : M unit :=
  obj ← get_qubit self;
  put_qubit self (set_active_field obj false);;
  b ← get_builder (_conn obj);
  if bool_decide (self ∈ active_qubits b) then
    put_builder (_conn obj)
      (set_active_qubits (list_remove self (active_qubits b)) b)
  else mret ().

(** [Qubit.__init__]: the object enters the store when its fields are
    there; [_ent_info] and [_remote_ent_node], which the source assigns
    after [_activate], are set with the others. *)
Definition __init__ (conn : nat) (add_new_command : bool)
  (ent_info : option LinkLayerOKTypeK) (virtual_address : option nat)
  : M nat :=
  qubit_id ← match virtual_address with
             | None => builder_call conn new_qubit_id
             | Some v => mret v
             end;
  (if add_new_command
   then builder_do conn (add_new_qubit_commands qubit_id)
   else mret ());;
  self ← alloc_qubit {| _conn := conn; _qubit_id := qubit_id;
                        _active := false; _ent_info := ent_info;
                        _remote_ent_node := None |};
  _activate self;;
  mret self.

(** the [qubit_id] property *)
Definition qubit_id (self : nat) : M nat :=
  obj ← get_qubit self; mret (_qubit_id obj).

Definition qubit_id_setter (self : nat) (qubit_id : nat) : M unit :=
  obj ← get_qubit self; put_qubit self (set_qubit_id_field obj qubit_id).

(** the [active] property *)
Definition active (self : nat) : M bool :=
  obj ← get_qubit self; mret (_active obj).

Definition active_setter (self : nat) (active : bool) : M unit :=
  obj ← get_qubit self;
  if bool_decide (_active obj = active) then mret ()
  else
    put_qubit self (set_active_field obj active);;
    if active then _activate self else _deactivate self.

Definition assert_active (self : nat) : M unit :=
  a ← active self;
  if negb a then
    id ← qubit_id self; raise (QubitNotActiveError id)
  else mret ().

(** Lines 173 to 186 of [measure]: the check, the future, the lowering.
    [new_array(1)] with [get_future_index(0)] gives the cell 0 of a new
    array, [RegFuture(self._conn)] a future on a fresh register. *)
Definition measure_lowering (self : nat) (future : option AnyFuture)
  (inplace store_array : bool) : M AnyFuture :=
  assert_active self;;
  obj ← get_qubit self;
  future ← match future with
           | Some f => mret f
           | None =>
             if store_array then
               array ← builder_call (_conn obj) (new_array 1);
               mret (Future array 0)
             else
               reg ← builder_call (_conn obj) new_register;
               mret (RegFuture reg)
           end;
  id ← qubit_id self;
  builder_do (_conn obj) (add_measure_commands id future inplace);;
  mret future.

Definition measure (self : nat) (future : option AnyFuture)
  (inplace store_array : bool) : M AnyFuture :=
  future ← measure_lowering self future inplace store_array;
  (if negb inplace then active_setter self false else mret ());;
  mret future.

(** The body that [X], [Y], [Z], [T], [H], [K] and [S] share:
    [self._conn._builder.add_single_qubit_commands(instr=...,
    qubit_id=self.qubit_id)], and nothing before it. *)
Definition single_qubit_gate (instr : GenericInstr.t) (self : nat) : M unit :=
  obj ← get_qubit self;
  id ← qubit_id self;
  builder_do (_conn obj) (add_single_qubit_commands instr id).

Definition X : nat -> M unit := single_qubit_gate GenericInstr.X.
Definition Y : nat -> M unit := single_qubit_gate GenericInstr.Y.
Definition T : nat -> M unit := single_qubit_gate GenericInstr.T.
Definition H : nat -> M unit := single_qubit_gate GenericInstr.H.
Definition K : nat -> M unit := single_qubit_gate GenericInstr.K.

(** The body that [rot_X], [rot_Y] and [rot_Z] share. *)
Definition rotation (instruction : GenericInstr.t) (self n d : nat)
  : M unit :=
  obj ← get_qubit self;
  id ← qubit_id self;
  builder_do (_conn obj)
    (add_single_qubit_rotation_commands instruction id n d).

(** [rot_X(n, d)], [rot_Y(n, d)], [rot_Z(n, d)] with [angle=None] *)
Definition rot_X : nat -> nat -> nat -> M unit := rotation GenericInstr.ROT_X.
Definition rot_Y : nat -> nat -> nat -> M unit := rotation GenericInstr.ROT_Y.
Definition rot_Z : nat -> nat -> nat -> M unit := rotation GenericInstr.ROT_Z.

(** The body that [cnot] and [cphase] share. *)
Definition two_qubit_gate (instr : GenericInstr.t) (self target : nat)
  : M unit :=
  obj ← get_qubit self;
  control_qubit_id ← qubit_id self;
  target_qubit_id ← qubit_id target;
  builder_do (_conn obj)
    (add_two_qubit_commands instr control_qubit_id target_qubit_id).

Definition cnot : nat -> nat -> M unit := two_qubit_gate GenericInstr.CNOT.
Definition cphase : nat -> nat -> M unit := two_qubit_gate GenericInstr.CPHASE.

Definition reset (self : nat) : M unit :=
  obj ← get_qubit self;
  id ← qubit_id self;
  builder_do (_conn obj) (add_init_qubit_commands id).

Definition free (self : nat) : M unit :=
  obj ← get_qubit self;
  id ← qubit_id self;
  builder_do (_conn obj) (add_qfree_commands id).

(** the [entanglement_info] property *)
Definition entanglement_info (self : nat) : M (option LinkLayerOKTypeK) :=
  obj ← get_qubit self; mret (_ent_info obj).

(** The [remote_entangled_node] property.  [get_node_name conn node_id]
    stands for [self._conn.network_info._get_node_name(node_id=...)],
    which is not among the sources and is taken as a parameter: it gives
    a name, or [None]. *)
Definition remote_entangled_node
  (get_node_name : nat -> nat -> option string) (self : nat)
  : M (option string) :=
  obj ← get_qubit self;
  match _remote_ent_node obj with
  | Some name => mret (Some name)
  | None =>
    ent_info ← entanglement_info self;
    match ent_info with
    | None => mret None
    | Some info =>
      let remote_node_id := remote_node_id info in
      let remote_node_name := get_node_name (_conn obj) remote_node_id in
      put_qubit self
        {| _conn := _conn obj; _qubit_id := _qubit_id obj;
           _active := _active obj; _ent_info := _ent_info obj;
           _remote_ent_node := remote_node_name |};;
      mret remote_node_name
    end
  end.

(** [Z] and [S] come last: from here on these names are the gates. *)
Definition Z : nat -> M unit := single_qubit_gate GenericInstr.Z.
Definition S : nat -> M unit := single_qubit_gate GenericInstr.S.

End Qubit.

(** ** Sequences of calls on qubit handles *)

Inductive Call :=
| CallInit (conn : nat) (add_new_command : bool)
    (ent_info : option LinkLayerOKTypeK) (virtual_address : option nat)
| CallSetActive (self : nat) (active : bool)
| CallActivate (self : nat)
| CallDeactivate (self : nat)
| CallSetQubitId (self qubit_id : nat)
| CallMeasure (self : nat) (future : option AnyFuture)
    (inplace store_array : bool)
| CallGate (instr : GenericInstr.t) (self : nat)
| CallRotation (instr : GenericInstr.t) (self n d : nat)
| CallTwoQubitGate (instr : GenericInstr.t) (self target : nat)
| CallReset (self : nat)
| CallFree (self : nat).

(** The world after a call, whether it returned or raised. *)
Definition run_call (c : Call) (w : World) : World :=
  match c with
  | CallInit conn add_new_command ent_info virtual_address =>
    snd (Qubit.__init__ conn add_new_command ent_info virtual_address w)
  | CallSetActive self active => snd (Qubit.active_setter self active w)
  | CallActivate self => snd (Qubit._activate self w)
  | CallDeactivate self => snd (Qubit._deactivate self w)
  | CallSetQubitId self qubit_id => snd (Qubit.qubit_id_setter self qubit_id w)
  | CallMeasure self future inplace store_array =>
    snd (Qubit.measure self future inplace store_array w)
  | CallGate instr self => snd (Qubit.single_qubit_gate instr self w)
  | CallRotation instr self n d => snd (Qubit.rotation instr self n d w)
  | CallTwoQubitGate instr self target =>
    snd (Qubit.two_qubit_gate instr self target w)
  | CallReset self => snd (Qubit.reset self w)
  | CallFree self => snd (Qubit.free self w)
  end.

Definition run_calls (calls : list Call) (w : World) : World :=
  foldl (fun w c => run_call c w) w calls.

(** ** The scoped comparisons of a future, and [test_futures] *)

(** Modelled from the spec: reading a future (sections 3 and 4.3;
    [netqasm.sdk.futures] is not among the sources): an array cell is
    loaded into a fresh register with [LOAD], a register future is its
    register. *)
Definition load_future (conn : nat) (future : AnyFuture) : M nat :=
  match future with
  | Future address index =>
    reg ← builder_call conn new_register;
    builder_do conn
      (emit [icmd GenericInstr.LOAD [Reg RR reg; ArrayEntry address index]]);;
    mret reg
  | RegFuture reg => mret reg
  end.

(** Modelled from the spec: [with future.if_..(value): body]
    (section 4.3): the load, the inverse branch to a fresh [IF_EXIT]
    label, the body, the label. *)
Definition if_context (inverse : GenericInstr.t) (conn : nat)
  (future : AnyFuture) (value : list Operand) (body : M unit) : M unit :=
  reg ← load_future conn future;
  label ← builder_call conn (new_label "IF_EXIT");
  builder_do conn
    (emit [icmd inverse ([Reg RR reg] ++ value ++ [LabelRef label])]);;
  body;;
  builder_do conn (emit [Label (mkBranchLabel label)]).

Definition if_ne (conn : nat) (future : AnyFuture) (value : nat)
  : M unit -> M unit :=
  if_context GenericInstr.BEQ conn future [Imm value].

Definition if_ez (conn : nat) (future : AnyFuture) : M unit -> M unit :=
  if_context GenericInstr.BNZ conn future [].

(** The body of [test_futures] ([src/tests/test_builder.py]), on
    connection 0, up to the pop of the pending subroutine. *)
Definition test_futures_program : M unit :=
  q ← Qubit.__init__ 0 true None None;
  m ← Qubit.measure q None false true;
  if_ne 0 m 0 (Qubit.__init__ 0 true None None;; mret ());;
  if_ez 0 m (Qubit.__init__ 0 true None None;; mret ()).

(** The body of [test_simple], on connection 0. *)
Definition test_simple_program : M unit :=
  q1 ← Qubit.__init__ 0 true None None;
  q2 ← Qubit.__init__ 0 true None None;
  Qubit.H q1;;
  Qubit.X q2;;
  Qubit.X q1;;
  Qubit.H q2.

(** The pattern that [test_futures] asserts. *)
Definition test_futures_pattern : list Pat :=
  [PInstr GenericInstr.MEAS;
   PInstr GenericInstr.QFREE;
   PInstr GenericInstr.STORE;
   PInstr GenericInstr.LOAD;
   PInstr GenericInstr.BEQ;
   PWild ANY_ZERO_OR_MORE;
   PWild BRANCH_LABEL;
   PInstr GenericInstr.LOAD;
   PInstr GenericInstr.BNZ;
   PWild ANY_ZERO_OR_MORE;
   PWild BRANCH_LABEL].

(** ** The invariant of the active-qubit lists

    The active-qubit list of every builder holds, without repetition, the
    handles of the active qubits of its connection. *)
Definition registered (w : World) : Prop :=
  forall c,
    NoDup (active_qubits (builders w c))
    /\ forall q, q ∈ active_qubits (builders w c)
         <-> exists obj, qubits w !! q = Some obj
                         /\ _conn obj = c /\ _active obj = true.

Definition preserves {A} (m : M A) : Prop :=
  forall w, registered w -> registered (snd (m w)).

(** Two worlds with the same objects and the same active-qubit lists. *)
Definition same_handles (w w' : World) : Prop :=
  qubits w' = qubits w
  /\ forall c, active_qubits (builders w' c) = active_qubits (builders w c).

(** The future that [measure] stores into, and the builder once the
    future is there: the one passed in, a cell of a new array of length 1,
    or a register future. *)
Definition future_for (future : option AnyFuture) (store_array : bool)
  (b : Builder) : AnyFuture * Builder :=
  match future with
  | Some f => (f, b)
  | None =>
    if store_array then (Future (fst (new_array 1 b)) 0, snd (new_array 1 b))
    else (RegFuture (fst (new_register b)), snd (new_register b))
  end.

(** The opcodes that creating the future emits. *)
Definition future_opcodes (future : option AnyFuture) (store_array : bool)
  : list (option GenericInstr.t) :=
  match future with
  | Some _ => []
  | None => if store_array then [Some GenericInstr.ARRAY] else []
  end.

(** The opcode of an item, [None] for a label. *)
Definition opcode (c : Cmd) : option GenericInstr.t :=
  match c with
  | Instr cmd => Some (instruction cmd)
  | Label _ => None
  end.

(** ** Vocabulary of the further properties of the matcher *)

(** The messages of the three assertions of [_match_any_zero_or_more]. *)
Definition wildcard_messages : list string :=
  ["wildcard at start of pattern not allowed";
   "wildcard at end of pattern not allowed";
   "wildcard directly after ANY_ZERO_OR_MORE not allowed"].

(** What [match_pattern] may end with: a boolean, or an [AssertionError]
    with one of these messages. *)
Definition wildcard_outcome (r : Exn + bool) : Prop :=
  match r with
  | inr _ => True
  | inl (AssertionError msg) => msg ∈ wildcard_messages
  | inl _ => False
  end.

(** A pattern element that an [ANY_ZERO_OR_MORE] may stand before: a
    literal opcode or [BRANCH_LABEL]. *)
Definition solid (p : Pat) : bool :=
  match p with
  | PInstr _ | PWild BRANCH_LABEL => true
  | PWild ANY_ONE | PWild ANY_ZERO_OR_MORE => false
  end.

(** The pattern elements [*, q1, *, q2, ...] for the elements [qs]. *)
Fixpoint star_chain (qs : list Pat) : list Pat :=
  match qs with
  | [] => []
  | q :: qs' => PWild ANY_ZERO_OR_MORE :: q :: star_chain qs'
  end.

#[global] Instance PatternWildcard_eq_dec : EqDecision PatternWildcard.
Proof. solve_decision. Defined.

#[global] Instance Pat_eq_dec : EqDecision Pat.
Proof. solve_decision. Defined.

(** A pattern without a refused [ANY_ZERO_OR_MORE]. *)
Definition valid_pattern (pattern : list Pat) : bool :=
  forallb (fun i => negb (refused_wildcard_at pattern i))
    (seq 0 (length pattern)).


(* ================================================================= *)
(** * The pattern matcher *)

(** ** The loop and its list view *)

Ltac matcher_step :=
  unfold _record_match, _reset_match;
  try match goal with
      | |- context [_match_start ?m] => destruct (_match_start m)
      end;
  eexists; (split; [reflexivity|]); simpl; repeat split; lia.

Lemma match_body_advance m c :
  _pat_len m = length (_pattern m) ->
  _pat_idx m <> _pat_len m ->
  _commands m !! _cmd_idx m = Some c ->
  match advance (_pattern m) (_pat_idx m) c with
  | inl e => match_body m = Raise e
  | inr i' =>
    exists m', match_body m = Continue m' /\
      _commands m' = _commands m /\ _pattern m' = _pattern m /\
      _pat_len m' = _pat_len m /\ _pat_idx m' = i' /\
      _cmd_idx m' = S (_cmd_idx m)
  end.
Proof.
  intros Hlen Hidx Hc.
  assert (Hlt : _cmd_idx m < length (_commands m))
    by (eapply lookup_lt_Some; eauto).
  unfold match_body, advance.
  destruct (decide (_pat_idx m = _pat_len m)) as [|_]; [congruence|].
  destruct (decide (_cmd_idx m = length (_commands m))) as [|_]; [lia|].
  unfold subscript.
  destruct (_pattern m !! _pat_idx m) as [[p|[| |]]|] eqn:Hp; simpl.
  - unfold _match_instr, subscript. rewrite Hp, Hc.
    destruct c as [cmd|l]; simpl; repeat case_decide;
      repeat case_bool_decide; try congruence; matcher_step.
  - unfold _match_any_one. matcher_step.
  - unfold _match_any_zero_or_more. rewrite <- Hlen.
    destruct (negb (bool_decide (0 < _pat_idx m))); [reflexivity|].
    destruct (negb (bool_decide (_pat_idx m + 1 < _pat_len m)));
      [reflexivity|].
    unfold subscript.
    destruct (_pattern m !! (_pat_idx m + 1)) as [[q|[| |]]|];
      try reflexivity; rewrite Hc; destruct c as [cmd|l]; simpl;
      repeat case_decide; repeat case_bool_decide; try congruence;
      matcher_step.
  - unfold _match_branch_label, subscript. rewrite Hc.
    destruct c as [cmd|l]; simpl; matcher_step.
  - reflexivity.
Qed.

Lemma match_loop_S n m :
  match_loop (S n) m
  = match match_body m with
    | Return b => Some (inr b)
    | Raise e => Some (inl e)
    | Continue m' => match_loop n m'
    end.
Proof. reflexivity. Qed.

Lemma match_loop_scan n : forall m,
  _pat_len m = length (_pattern m) ->
  _cmd_idx m + n = length (_commands m) ->
  match_loop (S n) m
  = Some (scan (_pattern m) (_pat_idx m) (drop (_cmd_idx m) (_commands m))).
Proof.
  induction n as [|n IH]; intros m Hlen Hn.
  - rewrite drop_ge by lia. simpl. unfold match_body. rewrite <- Hlen.
    destruct (decide (_pat_idx m = _pat_len m)); [reflexivity|].
    destruct (decide (_cmd_idx m = length (_commands m))); [|lia].
    destruct (_pattern m); simpl; [simpl in Hlen; congruence|].
    destruct (decide (_pat_idx m = S (length l))); [congruence|reflexivity].
  - destruct (_commands m !! _cmd_idx m) as [c|] eqn:Hc;
      [|apply lookup_ge_None in Hc; lia].
    rewrite (drop_S _ _ _ Hc).
    destruct (decide (_pat_idx m = _pat_len m)) as [He|Hne].
    + rewrite match_loop_S. unfold match_body.
      destruct (decide (_pat_idx m = _pat_len m)); [|congruence].
      cbn [scan]. rewrite <- Hlen.
      destruct (decide (_pat_idx m = _pat_len m)); [reflexivity|congruence].
    + pose proof (match_body_advance m c Hlen Hne Hc) as Hstep.
      rewrite match_loop_S. cbn [scan]. rewrite <- Hlen.
      destruct (decide (_pat_idx m = _pat_len m)); [congruence|].
      destruct (advance (_pattern m) (_pat_idx m) c) as [e|i'].
      * rewrite Hstep. reflexivity.
      * destruct Hstep as (m' & -> & Hcm & Hpm & Hlm & Him & Hkm).
        rewrite (IH m') by (rewrite ?Hcm, ?Hpm, ?Hlm, ?Hkm; congruence || lia).
        rewrite Hcm, Hpm, Him, Hkm. reflexivity.
Qed.

Lemma match_pattern_scan cmds pattern :
  match_pattern (inspector cmds) pattern = Some (scan pattern 0 cmds).
Proof.
  unfold match_pattern, PatternMatcher_match.
  rewrite match_loop_scan; [reflexivity|reflexivity|simpl; lia].
Qed.

Lemma match_loop_more_fuel n : forall m r k,
  match_loop n m = Some r -> n <= k -> match_loop k m = Some r.
Proof.
  induction n as [|n IH]; intros m r k H Hk; [discriminate|].
  destruct k as [|k]; [lia|]. simpl in *.
  destruct (match_body m); try assumption.
  apply IH; [assumption|lia].
Qed.

Lemma scan_at_end pattern cmds : scan pattern (length pattern) cmds = inr true.
Proof.
  destruct cmds; simpl; destruct (decide (length pattern = length pattern));
    congruence.
Qed.

Lemma advance_assertion pattern i c :
  i < length pattern ->
  (exists msg, advance pattern i c = inl (AssertionError msg))
  <-> refused_wildcard_at pattern i = true.
Proof.
  intros Hi. unfold advance, refused_wildcard_at.
  destruct (pattern !! i) as [[p|[| |]]|] eqn:Hp;
    try (split; [intros [? ?]; discriminate|discriminate]).
  - repeat case_bool_decide; simpl; try lia.
    + destruct (pattern !! (i + 1)) as [[q|[| |]]|] eqn:Hq;
        try (split; [intros [? ?]; discriminate|discriminate]);
        try (split; [reflexivity|eauto]).
      apply lookup_ge_None in Hq. lia.
    + split; [intros _|eauto].
      assert (Hq : pattern !! (i + 1) = None) by (apply lookup_ge_None; lia).
      rewrite Hq. reflexivity.
    + split; [reflexivity|eauto].
    + split; [reflexivity|eauto].
Qed.

Lemma advance_bound pattern i c i' :
  advance pattern i c = inr i' -> i' <= length pattern.
Proof.
  unfold advance.
  destruct (pattern !! i) as [[p|[| |]]|] eqn:Hp; try discriminate;
    try (apply lookup_lt_Some in Hp; intros [= <-]; try case_match; lia).
  repeat case_bool_decide; simpl; try discriminate.
  destruct (pattern !! (i + 1)) as [[q|[| |]]|]; try discriminate;
    intros [= <-]; try case_match; lia.
Qed.

(** No subscript of the loop is out of range. *)
Lemma scan_no_index_error pattern cmds : forall i,
  i <= length pattern -> scan pattern i cmds <> inl IndexError.
Proof.
  induction cmds as [|c rest IH]; intros i Hi; cbn [scan];
    destruct (decide (i = length pattern)) as [->|Hne]; try discriminate.
  destruct (advance pattern i c) as [e|i'] eqn:Hadv;
    [|apply IH; eapply advance_bound; eauto].
  revert Hadv. unfold advance.
  destruct (pattern !! i) as [[p|[| |]]|] eqn:Hp; try discriminate.
  - repeat case_bool_decide; cbn [negb]; try (intros [= <-]; discriminate).
    destruct (pattern !! (i + 1)) as [[q|[| |]]|] eqn:Hq;
      try discriminate; try (intros [= <-]; discriminate).
    apply lookup_ge_None in Hq. lia.
  - apply lookup_ge_None in Hp. lia.
Qed.

Lemma match_pattern_no_index_error cmds pattern :
  match_pattern (inspector cmds) pattern <> Some (inl IndexError).
Proof.
  rewrite match_pattern_scan. intros [= H].
  apply (scan_no_index_error pattern cmds 0); [lia|exact H].
Qed.

Lemma spec_match_tail pattern c rest :
  spec_match pattern rest = true -> spec_match pattern (c :: rest) = true.
Proof. intros H. simpl. rewrite H. apply orb_true_r. Qed.

Lemma spec_match_here_spec_match pattern cmds :
  spec_match_here pattern cmds = true -> spec_match pattern cmds = true.
Proof. intros H. destruct cmds; simpl; rewrite H; reflexivity. Qed.

(** What a run of the loop that ends in [True] has seen: the part of the
    pattern from the current index on matches the commands that are left,
    or the whole pattern is found later on. *)
Lemma scan_sound pattern cmds : forall i,
  scan pattern i cmds = inr true ->
  spec_match_here (drop i pattern) cmds = true
  \/ spec_match pattern cmds = true.
Proof.
  induction cmds as [|c rest IH]; intros i; cbn [scan];
    destruct (decide (i = length pattern)) as [->|Hne];
    try (intros _; left; rewrite drop_all; reflexivity);
    try discriminate.
  destruct (advance pattern i c) as [e|i'] eqn:Hadv; [discriminate|].
  intros Hscan. destruct (IH i' Hscan) as [Hhere|Hlater];
    [|right; apply spec_match_tail; assumption].
  revert Hadv. unfold advance.
  destruct (pattern !! i) as [p|] eqn:Hp; [|discriminate].
  rewrite (drop_S _ _ _ Hp).
  assert (Hstart : i' = 0 -> spec_match pattern (c :: rest) = true).
  { intros ->. rewrite drop_0 in Hhere.
    apply spec_match_tail, spec_match_here_spec_match, Hhere. }
  destruct p as [p|[| |]].
  - destruct (item_matches (PInstr p) c) eqn:Hm; intros [= <-];
      [|right; auto].
    left. cbn [spec_match_here]. rewrite Hm.
    replace (S i) with (i + 1) by lia. exact Hhere.
  - intros [= <-]. left. cbn [spec_match_here item_matches].
    replace (S i) with (i + 1) by lia. exact Hhere.
  - repeat case_bool_decide; cbn [negb]; try discriminate.
    destruct (pattern !! (i + 1)) as [q|] eqn:Hq; [|discriminate].
    replace (i + 1) with (S i) in Hq by lia.
    rewrite (drop_S _ _ _ Hq).
    destruct q as [q|[| |]]; try discriminate;
      (destruct (item_matches _ c) eqn:Hm; intros [= <-]; left;
       cbn [spec_match_here skip_to]; rewrite Hm;
       [replace (S (S i)) with (i + 2) by lia; exact Hhere
       |rewrite (drop_S _ _ _ Hp), (drop_S _ _ _ Hq) in Hhere;
        exact Hhere]).
  - destruct (item_matches (PWild BRANCH_LABEL) c) eqn:Hm; intros [= <-];
      [|right; auto].
    left. cbn [spec_match_here]. rewrite Hm.
    replace (S i) with (i + 1) by lia. exact Hhere.
Qed.


(** On an empty command list every non-empty pattern is answered with
    [False]; no wildcard is looked at. *)
Lemma match_pattern_no_commands p pattern :
  match_pattern (inspector []) (p :: pattern) = Some (inr false).
Proof. rewrite match_pattern_scan. reflexivity. Qed.

(** A pattern that starts with [ANY_ZERO_OR_MORE] is refused as soon as
    there is a command to look at. *)
Lemma match_pattern_wildcard_first c cmds pattern :
  match_pattern (inspector (c :: cmds)) (PWild ANY_ZERO_OR_MORE :: pattern)
  = Some (inl (AssertionError "wildcard at start of pattern not allowed")).
Proof. rewrite match_pattern_scan. reflexivity. Qed.

(** ** Termination of [PatternMatcher.match] *)

(** C10. [PatternMatcher.match] leaves its loop for every command list and
    every pattern.  An iteration that does not leave the loop (by
    [return], or by a failed [assert]) moves the command index forward by
    exactly one and keeps the command list; started by the inspector, the
    loop is left within [len(commands) + 1] iterations, and more
    iterations allowed change nothing. *)
Theorem match_terminates (commands : list Cmd) (pattern : list Pat) :
  (forall m,
     match match_body m with
     | Continue m' =>
       _cmd_idx m' = _cmd_idx m + 1 /\ _commands m' = _commands m
     | Return _ | Raise _ => True
     end)
  /\ exists r, forall extra,
       match_loop (length commands + 1 + extra)
                  (PatternMatcher_init commands pattern) = Some r.
Proof.
  split.
  - intros m. unfold match_body.
    repeat case_decide; try exact I.
    unfold subscript.
    destruct (_pattern m !! _pat_idx m) as [[p|[| |]]|]; try exact I.
    + unfold _match_instr, subscript.
      destruct (_pattern m !! _pat_idx m) as [[q|w]|]; try exact I.
      destruct (_commands m !! _cmd_idx m) as [[cmd|l]|]; try exact I;
        repeat case_decide; unfold _record_match, _reset_match;
        destruct (_match_start m); simpl; auto.
    + unfold _match_any_one, _record_match.
      destruct (_match_start m); simpl; auto.
    + unfold _match_any_zero_or_more, subscript.
      repeat case_bool_decide; cbn [negb]; try exact I.
      destruct (_pattern m !! (_pat_idx m + 1)) as [[q|[| |]]|];
        try exact I;
        destruct (_commands m !! _cmd_idx m) as [[cmd|l]|]; try exact I;
        repeat case_decide; simpl; auto.
    + unfold _match_branch_label, subscript.
      destruct (_commands m !! _cmd_idx m) as [[cmd|l]|]; try exact I;
        unfold _record_match, _reset_match;
        destruct (_match_start m); simpl; auto.
  - exists (scan pattern 0 commands). intros extra.
    apply (match_loop_more_fuel (S (length commands))); [|lia].
    rewrite match_loop_scan; [reflexivity|reflexivity|simpl; lia].
Qed.

(** ** The two entry points of the inspector *)

Lemma scan_single_opcode op cmds :
  scan [PInstr op] 0 cmds = inr (contains_instr_loop cmds op).
Proof.
  induction cmds as [|c rest IH]; [reflexivity|].
  cbn [scan contains_instr_loop length].
  destruct (decide (0 = 1)) as [|_]; [lia|].
  unfold advance. cbn [lookup list_lookup].
  destruct c as [cmd|l]; cbn [item_matches].
  - case_bool_decide; case_decide; try congruence.
    apply scan_at_end.
  - case_decide; [discriminate|exact IH].
Qed.

(** C8. For every pre-subroutine and every opcode [op], [contains_instr(op)]
    and [match_pattern([op])] give the same answer (on an empty command
    list too: both say [False]); [match_pattern] raises nothing here. *)
Theorem contains_instr_is_match_pattern
  (self : PreSubroutineInspector) (op : GenericInstr.t) :
  match_pattern self [PInstr op] = Some (inr (contains_instr self op)).
Proof.
  destruct self as [[cmds]].
  change (match_pattern (inspector cmds) [PInstr op]
          = Some (inr (contains_instr_loop cmds op))).
  rewrite match_pattern_scan, scan_single_opcode. reflexivity.
Qed.

(** ** [match_pattern] against the reference matcher *)

(** C1. [match_pattern] is not the reference matcher: the commands
    [X; X; H] contain the pattern [X; H] from offset 1, and
    [match_pattern] answers [False].  Its loop matches [X] at offset 0,
    drops the attempt at the second [X] and goes on behind it, so the
    occurrence that starts at that second [X] is never tried. *)
Theorem match_pattern_misses_restart :
  let cmds := [ins GenericInstr.X; ins GenericInstr.X; ins GenericInstr.H] in
  let pattern := [PInstr GenericInstr.X; PInstr GenericInstr.H] in
  match_pattern (inspector cmds) pattern = Some (inr false)
  /\ spec_match pattern cmds = true
  /\ spec_match_here pattern (drop 1 cmds) = true.
Proof. vm_compute. auto. Qed.

(** The same happens behind an [ANY_ZERO_OR_MORE]. *)
Lemma match_pattern_misses_after_wildcard :
  let cmds := [ins GenericInstr.BNE; ins GenericInstr.BNE;
               ins GenericInstr.SET; Label (mkBranchLabel "IF_EXIT")] in
  let pattern := [PInstr GenericInstr.BNE; PInstr GenericInstr.SET;
                  PWild ANY_ZERO_OR_MORE; PWild BRANCH_LABEL] in
  match_pattern (inspector cmds) pattern = Some (inr false)
  /\ spec_match pattern cmds = true.
Proof. vm_compute. auto. Qed.

(** ** Refused wildcards *)

(** C7, as stated, fails: the pattern [[ANY_ZERO_OR_MORE]] has its wildcard
    at the start and at the end; the matcher is built without an error,
    and on an empty command list [match_pattern] answers [False]; with a
    command to look at, the same pattern raises. *)
Lemma refused_wildcard_not_found_at_construction :
  let pattern := [PWild ANY_ZERO_OR_MORE] in
  refused_wildcard_at pattern 0 = true
  /\ _pat_idx (PatternMatcher_init [] pattern) = 0
  /\ match_pattern (inspector []) pattern = Some (inr false)
  /\ match_pattern (inspector [ins GenericInstr.X]) pattern
     = Some (inl (AssertionError "wildcard at start of pattern not allowed")).
Proof. vm_compute. auto. Qed.

(** One iteration: with a command to look at, it raises an
    [AssertionError] exactly when the pattern index stands on a refused
    [ANY_ZERO_OR_MORE]; the loop then ends with that error. *)
Lemma iteration_raises_on_refused_wildcard (m : PatternMatcher) :
  _pat_len m = length (_pattern m) ->
  _pat_idx m < _pat_len m ->
  _cmd_idx m < length (_commands m) ->
  ((exists msg, match_body m = Raise (AssertionError msg))
   <-> refused_wildcard_at (_pattern m) (_pat_idx m) = true)
  /\ (forall msg fuel,
        match_body m = Raise (AssertionError msg) ->
        match_loop (S fuel) m = Some (inl (AssertionError msg))).
Proof.
  intros Hlen Hi Hk. split.
  - destruct (_commands m !! _cmd_idx m) as [c|] eqn:Hc;
      [|apply lookup_ge_None in Hc; lia].
    rewrite <- (advance_assertion _ _ c) by lia.
    pose proof (match_body_advance m c Hlen ltac:(lia) Hc) as Hstep.
    destruct (advance (_pattern m) (_pat_idx m) c) as [e|i'].
    + rewrite Hstep. split; intros [msg [= ->]]; eauto.
    + destruct Hstep as (m' & -> & _).
      split; intros [msg H]; discriminate.
  - intros msg fuel H. rewrite match_loop_S, H. reflexivity.
Qed.

Lemma scan_assertion pattern cmds : forall i,
  i <= length pattern ->
  (exists msg, scan pattern i cmds = inl (AssertionError msg))
  <-> exists k j, k < length cmds
                  /\ index_after pattern i (take k cmds) = Some j
                  /\ refused_wildcard_at pattern j = true.
Proof.
  induction cmds as [|c rest IH]; intros i Hi.
  - cbn [scan]. split.
    + intros [msg H]. case_decide; discriminate.
    + intros (k & j & Hk & _). simpl in Hk. lia.
  - cbn [scan]. destruct (decide (i = length pattern)) as [->|Hne].
    + split; [intros [msg H]; discriminate|].
      intros (k & j & _ & Hidx & Href). destruct k as [|k]; simpl in Hidx.
      * injection Hidx as <-. unfold refused_wildcard_at in Href.
        rewrite lookup_ge_None_2 in Href by lia. discriminate.
      * case_decide; [discriminate|congruence].
    + pose proof (advance_assertion pattern i c ltac:(lia)) as Hadv.
      destruct (advance pattern i c) as [e|i'] eqn:Hstep.
      * split.
        -- intros [msg [= ->]]. exists 0, i. simpl.
           split; [lia|]. split; [reflexivity|]. apply Hadv. eauto.
        -- intros (k & j & _ & Hidx & Href).
           destruct k as [|k]; simpl in Hidx.
           ++ injection Hidx as <-. apply Hadv in Href as [msg [= ->]]. eauto.
           ++ case_decide; [congruence|]. rewrite Hstep in Hidx. discriminate.
      * rewrite (IH i') by (eapply advance_bound; eauto). split.
        -- intros (k & j & Hk & Hidx & Href). exists (Datatypes.S k), j.
           simpl. split; [lia|]. split; [|exact Href].
           case_decide; [congruence|]. rewrite Hstep. exact Hidx.
        -- intros (k & j & Hk & Hidx & Href).
           destruct k as [|k]; simpl in Hidx, Hk.
           ++ injection Hidx as <-. apply Hadv in Href as [msg Hmsg].
              discriminate.
           ++ case_decide; [congruence|]. rewrite Hstep in Hidx.
              exists k, j. split; [lia|]. auto.
Qed.

(** C7, amended.  Building the matcher checks nothing: [__init__] stores
    its arguments and sets the indices.  [match_pattern] raises an
    [AssertionError] exactly when, for some command [k] of the list, the
    loop enters its iteration on that command with the pattern index on an
    [ANY_ZERO_OR_MORE] that is first in the pattern, last in the pattern,
    or directly followed by [ANY_ONE] or [ANY_ZERO_OR_MORE]. *)
Theorem refused_wildcard_raises_when_reached
  (cmds : list Cmd) (pattern : list Pat) :
  (exists msg,
     match_pattern (inspector cmds) pattern
     = Some (inl (AssertionError msg)))
  <-> exists k i, k < length cmds
                  /\ index_after pattern 0 (take k cmds) = Some i
                  /\ refused_wildcard_at pattern i = true.
Proof.
  rewrite match_pattern_scan, <- (scan_assertion pattern cmds 0) by lia.
  split; intros [msg H]; exists msg; congruence.
Qed.

(* ================================================================= *)
(** * The qubit handle *)

(** ** Running the methods *)

Lemma bind_run {A B} (m : M A) (k : A -> M B) w :
  (m ≫= k) w
  = match m w with
    | (inl e, w') => (inl e, w')
    | (inr a, w') => k a w'
    end.
Proof. reflexivity. Qed.

Ltac run :=
  unfold mbind, M_bind, mret, M_ret, raise, get_qubit, put_qubit,
    alloc_qubit, get_builder, put_builder, builder_do, builder_call.

Lemma activate_run w self obj :
  qubits w !! self = Some obj ->
  Qubit._activate self w
  = (inr (),
     {| qubits := <[self := set_active_field obj true]> (qubits w);
        builders :=
          if bool_decide (self ∈ active_qubits (builders w (_conn obj)))
          then builders w
          else <[_conn obj :=
                   set_active_qubits
                     (active_qubits (builders w (_conn obj)) ++ [self])
                     (builders w (_conn obj))]> (builders w) |}).
Proof.
  intros H. unfold Qubit._activate. run. rewrite H. simpl.
  case_bool_decide; reflexivity.
Qed.

Lemma deactivate_run w self obj :
  qubits w !! self = Some obj ->
  Qubit._deactivate self w
  = (inr (),
     {| qubits := <[self := set_active_field obj false]> (qubits w);
        builders :=
          if bool_decide (self ∈ active_qubits (builders w (_conn obj)))
          then <[_conn obj :=
                   set_active_qubits
                     (list_remove self (active_qubits (builders w (_conn obj))))
                     (builders w (_conn obj))]> (builders w)
          else builders w |}).
Proof.
  intros H. unfold Qubit._deactivate. run. rewrite H. simpl.
  case_bool_decide; reflexivity.
Qed.

Lemma dangling_activate w self :
  qubits w !! self = None -> Qubit._activate self w = (inl DanglingHandle, w).
Proof. intros H. unfold Qubit._activate. run. rewrite H. reflexivity. Qed.

Lemma dangling_deactivate w self :
  qubits w !! self = None ->
  Qubit._deactivate self w = (inl DanglingHandle, w).
Proof. intros H. unfold Qubit._deactivate. run. rewrite H. reflexivity. Qed.

(** The setter: nothing when the flag is already there, else what
    [_activate] or [_deactivate] does. *)
Lemma active_setter_run w self obj active :
  qubits w !! self = Some obj ->
  Qubit.active_setter self active w
  = if bool_decide (_active obj = active) then (inr (), w)
    else if active then Qubit._activate self w
         else Qubit._deactivate self w.
Proof.
  intros H. unfold Qubit.active_setter.
  rewrite bind_run. unfold get_qubit at 1. rewrite H.
  case_bool_decide; [reflexivity|].
  assert (Hlt : self < length (qubits w)) by (eapply lookup_lt_Some; eauto).
  rewrite bind_run. unfold put_qubit at 1.
  destruct active.
  - rewrite (activate_run _ _ (set_active_field obj true)), (activate_run w _ obj)
      by (simpl; rewrite ?list_lookup_insert_eq; auto).
    simpl. rewrite list_insert_insert_eq. reflexivity.
  - rewrite (deactivate_run _ _ (set_active_field obj false)),
      (deactivate_run w _ obj)
      by (simpl; rewrite ?list_lookup_insert_eq; auto).
    simpl. rewrite list_insert_insert_eq. reflexivity.
Qed.

(** ** The invariant and the calls that keep it *)

Lemma registered_empty : registered empty_world.
Proof.
  intros c. split; [constructor|].
  intros q. simpl. split; [intros H; inversion H|].
  intros (obj & H & _). rewrite lookup_nil in H. discriminate.
Qed.

Lemma registered_same_handles w w' :
  same_handles w w' -> registered w -> registered w'.
Proof.
  intros [Hq Hb] Hreg c. rewrite Hb, Hq. apply Hreg.
Qed.

(** One object changes, and with it the list of its connection. *)
Lemma registered_update w w' self obj obj' l' :
  registered w ->
  qubits w !! self = Some obj ->
  _conn obj' = _conn obj ->
  qubits w' = <[self := obj']> (qubits w) ->
  (forall c, active_qubits (builders w' c)
             = if decide (c = _conn obj) then l'
               else active_qubits (builders w c)) ->
  NoDup l' ->
  (forall q, q <> self ->
     (q ∈ l' <-> q ∈ active_qubits (builders w (_conn obj)))) ->
  (self ∈ l' <-> _active obj' = true) ->
  registered w'.
Proof.
  intros Hreg Hself Hconn Hq Hb Hnd Hother Hin c.
  assert (Hlt : self < length (qubits w)) by (eapply lookup_lt_Some; eauto).
  rewrite Hb, Hq. split.
  - case_decide; [assumption|apply Hreg].
  - intros q. destruct (decide (q = self)) as [->|Hne].
    + rewrite list_lookup_insert_eq by assumption.
      case_decide as Hc.
      * subst c. rewrite Hin. split; [eauto|].
        intros (o & [= <-] & _ & Ha). exact Ha.
      * split.
        -- intros Hin'. apply Hreg in Hin' as (o & Ho & Hco & _).
           congruence.
        -- intros (o & [= <-] & Hco & _). congruence.
    + rewrite list_lookup_insert_ne by auto.
      case_decide as Hc; [|apply Hreg].
      subst c. rewrite (Hother q Hne). apply Hreg.
Qed.

Lemma fn_insert_active_qubits (f : nat -> Builder) c b c' :
  active_qubits (<[c := b]> f c')
  = if decide (c' = c) then active_qubits b else active_qubits (f c').
Proof.
  case_decide as H.
  - subst. rewrite fn_lookup_insert. reflexivity.
  - rewrite fn_lookup_insert_ne by auto. reflexivity.
Qed.

Lemma elem_of_list_remove_ne x y l :
  y <> x -> (y ∈ list_remove x l <-> y ∈ l).
Proof.
  intros Hne. induction l as [|z l IH]; simpl; [reflexivity|].
  case_decide; subst; rewrite ?elem_of_cons, ?IH; intuition congruence.
Qed.

Lemma list_remove_subset x y l : y ∈ list_remove x l -> y ∈ l.
Proof.
  induction l as [|z l IH]; simpl; [auto|].
  case_decide; rewrite ?elem_of_cons; intuition.
Qed.

Lemma NoDup_list_remove x l :
  NoDup l -> NoDup (list_remove x l) /\ x ∉ list_remove x l.
Proof.
  induction 1 as [|z l Hz Hnd [IH1 IH2]]; simpl.
  - split; [constructor|]. intros H. inversion H.
  - case_decide as Hzx.
    + subst. auto.
    + split.
      * constructor; [|assumption].
        intros Hin. apply Hz. eapply list_remove_subset; eauto.
      * rewrite elem_of_cons. intros [->|Hin]; [congruence|auto].
Qed.

Lemma preserves_activate self : preserves (Qubit._activate self).
Proof.
  intros w Hreg.
  destruct (qubits w !! self) as [obj|] eqn:Hself;
    [|rewrite dangling_activate by assumption; assumption].
  rewrite (activate_run _ _ _ Hself). cbn [snd].
  pose proof (Hreg (_conn obj)) as [Hnd Hiff].
  eapply (registered_update w _ self obj (set_active_field obj true)
            (if bool_decide (self ∈ active_qubits (builders w (_conn obj)))
             then active_qubits (builders w (_conn obj))
             else active_qubits (builders w (_conn obj)) ++ [self]));
    try assumption; try reflexivity.
  - intros c. cbn [builders]. case_bool_decide.
    + case_decide; subst; reflexivity.
    + rewrite fn_insert_active_qubits. reflexivity.
  - case_bool_decide; [assumption|].
    apply NoDup_app. split; [assumption|]. split; [|apply NoDup_singleton].
    intros x Hx. rewrite list_elem_of_singleton. congruence.
  - intros q Hne. case_bool_decide; [reflexivity|].
    rewrite elem_of_app, list_elem_of_singleton. intuition.
  - simpl. case_bool_decide; [tauto|].
    rewrite elem_of_app, list_elem_of_singleton. tauto.
Qed.

Lemma preserves_deactivate self : preserves (Qubit._deactivate self).
Proof.
  intros w Hreg.
  destruct (qubits w !! self) as [obj|] eqn:Hself;
    [|rewrite dangling_deactivate by assumption; assumption].
  rewrite (deactivate_run _ _ _ Hself). cbn [snd].
  pose proof (Hreg (_conn obj)) as [Hnd Hiff].
  pose proof (NoDup_list_remove self _ Hnd) as [Hnd' Hnot].
  eapply (registered_update w _ self obj (set_active_field obj false)
            (if bool_decide (self ∈ active_qubits (builders w (_conn obj)))
             then list_remove self (active_qubits (builders w (_conn obj)))
             else active_qubits (builders w (_conn obj))));
    try assumption; try reflexivity.
  - intros c. cbn [builders]. case_bool_decide.
    + rewrite fn_insert_active_qubits. reflexivity.
    + case_decide; subst; reflexivity.
  - case_bool_decide; assumption.
  - intros q Hne. case_bool_decide; [|reflexivity].
    apply elem_of_list_remove_ne. assumption.
  - simpl. case_bool_decide; split; intros; try discriminate; tauto.
Qed.

Lemma preserves_ret {A} (a : A) : preserves (mret a).
Proof. intros w H. exact H. Qed.

Lemma preserves_raise {A} e : preserves (@raise A e).
Proof. intros w H. exact H. Qed.

Lemma preserves_bind {A B} (m : M A) (k : A -> M B) :
  preserves m -> (forall a, preserves (k a)) -> preserves (m ≫= k).
Proof.
  intros Hm Hk w Hreg. rewrite bind_run.
  specialize (Hm w Hreg). destruct (m w) as [[e|a] w']; [exact Hm|].
  apply Hk. exact Hm.
Qed.

Lemma preserves_get_qubit self : preserves (get_qubit self).
Proof.
  intros w H. unfold get_qubit. destruct (qubits w !! self); exact H.
Qed.

Lemma preserves_builder_do conn f :
  (forall b, active_qubits (f b) = active_qubits b) ->
  preserves (builder_do conn f).
Proof.
  intros Hf w. apply registered_same_handles. split; [reflexivity|].
  intros c. simpl. rewrite fn_insert_active_qubits, Hf.
  case_decide; subst; reflexivity.
Qed.

Lemma preserves_builder_call {A} conn (f : Builder -> A * Builder) :
  (forall b, active_qubits (snd (f b)) = active_qubits b) ->
  preserves (builder_call conn f).
Proof.
  intros Hf w. apply registered_same_handles. split.
  - unfold builder_call. run. destruct (f (builders w conn)); reflexivity.
  - intros c. unfold builder_call. run. specialize (Hf (builders w conn)).
    destruct (f (builders w conn)) as [a b']. simpl in *.
    rewrite fn_insert_active_qubits, Hf. case_decide; subst; reflexivity.
Qed.

Lemma preserves_alloc obj :
  _active obj = false -> preserves (alloc_qubit obj).
Proof.
  intros Hobj w Hreg c. simpl. destruct (Hreg c) as [Hnd Hiff].
  split; [assumption|]. intros q. rewrite Hiff. split.
  - intros (o & Ho & H). exists o. split; [|exact H].
    rewrite lookup_app_l; [assumption|]. eapply lookup_lt_Some; eauto.
  - intros (o & Ho & Hc & Ha). exists o. split; [|auto].
    apply lookup_app_Some in Ho as [Ho|[_ Ho]]; [assumption|].
    apply list_lookup_singleton_Some in Ho as [_ ->]. congruence.
Qed.

Lemma preserves_active_setter self active :
  preserves (Qubit.active_setter self active).
Proof.
  intros w Hreg.
  destruct (qubits w !! self) as [obj|] eqn:Hself.
  - rewrite (active_setter_run _ _ _ _ Hself).
    case_bool_decide; [assumption|].
    destruct active; [apply preserves_activate|apply preserves_deactivate];
      assumption.
  - unfold Qubit.active_setter. run. rewrite Hself. assumption.
Qed.

Lemma preserves_qubit_id_setter self qubit_id :
  preserves (Qubit.qubit_id_setter self qubit_id).
Proof.
  intros w Hreg. unfold Qubit.qubit_id_setter. run.
  destruct (qubits w !! self) as [obj|] eqn:Hself; [|assumption].
  cbn [snd]. pose proof (Hreg (_conn obj)) as [Hnd Hiff].
  eapply (registered_update w _ self obj (set_qubit_id_field obj qubit_id)
            (active_qubits (builders w (_conn obj))));
    try assumption; try reflexivity.
  - intros c. simpl. case_decide; subst; reflexivity.
  - rewrite Hiff. simpl. split; [|eauto].
    intros (o & Ho & _ & Ha). congruence.
Qed.

Ltac preserves_tac :=
  repeat first
    [ apply preserves_ret
    | apply preserves_raise
    | apply preserves_get_qubit
    | apply preserves_activate
    | apply preserves_deactivate
    | apply preserves_active_setter
    | apply preserves_alloc; reflexivity
    | apply preserves_builder_do; intros ?; reflexivity
    | apply preserves_builder_call; intros ?; reflexivity
    | match goal with
      | |- preserves (if ?b then _ else _) => destruct b
      | |- preserves (match ?o with Some _ => _ | None => _ end) =>
        destruct o
      end
    | apply preserves_bind; [|intros ?] ].

Lemma preserves_init conn add_new_command ent_info virtual_address :
  preserves (Qubit.__init__ conn add_new_command ent_info virtual_address).
Proof. unfold Qubit.__init__. preserves_tac. Qed.

Lemma preserves_assert_active self : preserves (Qubit.assert_active self).
Proof.
  unfold Qubit.assert_active, Qubit.active, Qubit.qubit_id. preserves_tac.
Qed.

Lemma preserves_measure self future inplace store_array :
  preserves (Qubit.measure self future inplace store_array).
Proof.
  unfold Qubit.measure, Qubit.measure_lowering, Qubit.qubit_id.
  preserves_tac; apply preserves_assert_active.
Qed.

Lemma preserves_run_call c : preserves (fun w => (inr (), run_call c w)).
Proof.
  intros w Hreg. cbn [snd]. destruct c; cbn [run_call].
  - apply preserves_init, Hreg.
  - apply preserves_active_setter, Hreg.
  - apply preserves_activate, Hreg.
  - apply preserves_deactivate, Hreg.
  - apply preserves_qubit_id_setter, Hreg.
  - apply preserves_measure, Hreg.
  - revert w Hreg. change (preserves (Qubit.single_qubit_gate instr self)).
    unfold Qubit.single_qubit_gate, Qubit.qubit_id. preserves_tac.
  - revert w Hreg. change (preserves (Qubit.rotation instr self n d)).
    unfold Qubit.rotation, Qubit.qubit_id. preserves_tac.
  - revert w Hreg. change (preserves (Qubit.two_qubit_gate instr self target)).
    unfold Qubit.two_qubit_gate, Qubit.qubit_id. preserves_tac.
  - revert w Hreg. change (preserves (Qubit.reset self)).
    unfold Qubit.reset, Qubit.qubit_id. preserves_tac.
  - revert w Hreg. change (preserves (Qubit.free self)).
    unfold Qubit.free, Qubit.qubit_id. preserves_tac.
Qed.

Lemma registered_run_calls calls : forall w,
  registered w -> registered (run_calls calls w).
Proof.
  induction calls as [|c calls IH]; intros w Hreg; [exact Hreg|].
  apply IH. apply (preserves_run_call c w Hreg).
Qed.

(** ** [measure], the gates and [free] on a handle *)

Lemma ret_run {A} (a : A) (w : World) : @mret M _ A a w = (inr a, w).
Proof. reflexivity. Qed.

Lemma get_qubit_run w self obj :
  qubits w !! self = Some obj -> get_qubit self w = (inr obj, w).
Proof. intros H. unfold get_qubit. rewrite H. reflexivity. Qed.

Lemma qubit_id_run w self obj :
  qubits w !! self = Some obj -> Qubit.qubit_id self w = (inr (_qubit_id obj), w).
Proof.
  intros H. unfold Qubit.qubit_id.
  rewrite bind_run, (get_qubit_run _ _ _ H). reflexivity.
Qed.

Lemma assert_active_run w self obj :
  qubits w !! self = Some obj ->
  Qubit.assert_active self w
  = if _active obj then (inr (), w)
    else (inl (QubitNotActiveError (_qubit_id obj)), w).
Proof.
  intros H. unfold Qubit.assert_active, Qubit.active.
  rewrite !bind_run, (get_qubit_run _ _ _ H).
  rewrite ret_run. destruct (_active obj); cbn [negb]; [reflexivity|].
  rewrite bind_run, (qubit_id_run _ _ _ H). reflexivity.
Qed.

Lemma builder_do_run conn f w :
  builder_do conn f w
  = (inr (), {| qubits := qubits w;
                builders := <[conn := f (builders w conn)]> (builders w) |}).
Proof. reflexivity. Qed.

Lemma builder_call_run {A} conn (f : Builder -> A * Builder) w :
  builder_call conn f w
  = (inr (fst (f (builders w conn))),
     {| qubits := qubits w;
        builders := <[conn := snd (f (builders w conn))]> (builders w) |}).
Proof.
  unfold builder_call. run. destruct (f (builders w conn)). reflexivity.
Qed.

Lemma measure_lowering_run w self obj future inplace store_array :
  qubits w !! self = Some obj ->
  _active obj = true ->
  let fb := future_for future store_array (builders w (_conn obj)) in
  exists w1,
    Qubit.measure_lowering self future inplace store_array w
    = (inr (fst fb), w1)
    /\ qubits w1 = qubits w
    /\ builders w1 (_conn obj)
       = add_measure_commands (_qubit_id obj) (fst fb) inplace (snd fb)
    /\ forall c, c <> _conn obj -> builders w1 c = builders w c.
Proof.
  intros Hself Hact fb. subst fb.
  unfold Qubit.measure_lowering, future_for.
  rewrite bind_run, (assert_active_run _ _ _ Hself), Hact.
  rewrite bind_run, (get_qubit_run _ _ _ Hself).
  rewrite bind_run.
  destruct future as [f|]; [|destruct store_array].
  - rewrite ret_run.
    rewrite bind_run, (qubit_id_run _ _ _ Hself).
    rewrite bind_run, builder_do_run.
    eexists. split; [reflexivity|]. cbn [qubits builders fst snd].
    split; [reflexivity|]. split; [apply fn_lookup_insert|].
    intros c Hc. apply fn_lookup_insert_ne. auto.
  - rewrite bind_run, builder_call_run.
    rewrite ret_run.
    rewrite bind_run, (qubit_id_run _ _ obj) by exact Hself.
    rewrite bind_run, builder_do_run.
    eexists. split; [reflexivity|]. cbn [qubits builders fst snd].
    split; [reflexivity|].
    split; [rewrite !fn_lookup_insert; reflexivity|].
    intros c Hc. rewrite !fn_lookup_insert_ne by auto. reflexivity.
  - rewrite bind_run, builder_call_run.
    rewrite ret_run.
    rewrite bind_run, (qubit_id_run _ _ obj) by exact Hself.
    rewrite bind_run, builder_do_run.
    eexists. split; [reflexivity|]. cbn [qubits builders fst snd].
    split; [reflexivity|].
    split; [rewrite !fn_lookup_insert; reflexivity|].
    intros c Hc. rewrite !fn_lookup_insert_ne by auto. reflexivity.
Qed.

Lemma measure_raises_when_inactive w self obj future inplace store_array :
  qubits w !! self = Some obj ->
  _active obj = false ->
  Qubit.measure self future inplace store_array w
  = (inl (QubitNotActiveError (_qubit_id obj)), w).
Proof.
  intros Hself Hact.
  unfold Qubit.measure, Qubit.measure_lowering.
  rewrite !bind_run, (assert_active_run _ _ _ Hself), Hact. reflexivity.
Qed.

Lemma measure_run w self obj future inplace store_array w1 fut :
  qubits w1 !! self = Some obj ->
  _active obj = true ->
  Qubit.measure_lowering self future inplace store_array w = (inr fut, w1) ->
  Qubit.measure self future inplace store_array w
  = (inr fut, if inplace then w1 else snd (Qubit._deactivate self w1)).
Proof.
  intros Hself Hact H. unfold Qubit.measure. rewrite bind_run, H.
  destruct inplace; cbn [negb]; [reflexivity|].
  rewrite bind_run, (active_setter_run _ _ _ _ Hself).
  case_bool_decide; [congruence|].
  rewrite (deactivate_run _ _ _ Hself). reflexivity.
Qed.

Lemma single_qubit_gate_run w self obj instr :
  qubits w !! self = Some obj ->
  Qubit.single_qubit_gate instr self w
  = (inr (),
     {| qubits := qubits w;
        builders :=
          <[_conn obj := add_single_qubit_commands instr (_qubit_id obj)
                           (builders w (_conn obj))]> (builders w) |}).
Proof.
  intros H. unfold Qubit.single_qubit_gate.
  rewrite bind_run, (get_qubit_run _ _ _ H).
  rewrite bind_run, (qubit_id_run _ _ _ H). apply builder_do_run.
Qed.

(** A gate goes to the builder whatever the [active] flag says. *)
Lemma single_qubit_gate_ignores_active w self obj instr :
  qubits w !! self = Some obj ->
  fst (Qubit.single_qubit_gate instr self w) = inr ()
  /\ pending_commands
       (builders (snd (Qubit.single_qubit_gate instr self w)) (_conn obj))
     = pending_commands (builders w (_conn obj))
       ++ [icmd GenericInstr.SET [Reg RQ (_qubit_id obj); Imm (_qubit_id obj)];
           icmd instr [Reg RQ (_qubit_id obj)]].
Proof.
  intros H. rewrite (single_qubit_gate_run _ _ _ _ H). cbn [fst snd builders].
  rewrite fn_lookup_insert. split; reflexivity.
Qed.

Lemma free_run w self obj :
  qubits w !! self = Some obj ->
  Qubit.free self w
  = (inr (),
     {| qubits := qubits w;
        builders :=
          <[_conn obj := add_qfree_commands (_qubit_id obj)
                           (builders w (_conn obj))]> (builders w) |}).
Proof.
  intros H. unfold Qubit.free.
  rewrite bind_run, (get_qubit_run _ _ _ H).
  rewrite bind_run, (qubit_id_run _ _ _ H). apply builder_do_run.
Qed.

(** [free] emits [QFREE] and leaves the objects and the active-qubit lists
    as they are. *)
Lemma free_leaves_handle w self obj :
  qubits w !! self = Some obj ->
  let w' := snd (Qubit.free self w) in
  fst (Qubit.free self w) = inr ()
  /\ pending_commands (builders w' (_conn obj))
     = pending_commands (builders w (_conn obj))
       ++ [icmd GenericInstr.QFREE [Reg RQ (_qubit_id obj)]]
  /\ qubits w' = qubits w
  /\ forall c, active_qubits (builders w' c) = active_qubits (builders w c).
Proof.
  intros H w'. subst w'. rewrite (free_run _ _ _ H). cbn [fst snd builders qubits].
  split; [reflexivity|]. split; [rewrite fn_lookup_insert; reflexivity|].
  split; [reflexivity|].
  intros c. rewrite fn_insert_active_qubits. case_decide; subst; reflexivity.
Qed.

Lemma opcodes_add_measure_commands qubit_id future inplace b :
  map opcode (pending_commands (add_measure_commands qubit_id future inplace b))
  = map opcode (pending_commands b)
    ++ [Some GenericInstr.MEAS]
    ++ (if inplace then [] else [Some GenericInstr.QFREE])
    ++ [Some GenericInstr.STORE].
Proof.
  unfold add_measure_commands. cbn. rewrite map_app.
  destruct inplace; reflexivity.
Qed.

Lemma opcodes_future_for future store_array b :
  map opcode (pending_commands (snd (future_for future store_array b)))
  = map opcode (pending_commands b) ++ future_opcodes future store_array.
Proof.
  destruct future as [f|]; [|destruct store_array]; cbn;
    rewrite ?map_app, ?app_nil_r; reflexivity.
Qed.

Lemma active_qubits_measure qubit_id future inplace store_array f b :
  active_qubits
    (add_measure_commands qubit_id f inplace
       (snd (future_for future store_array b)))
  = active_qubits b.
Proof. destruct future as [?|]; [|destruct store_array]; reflexivity. Qed.

Lemma deactivate_keeps_commands w self obj :
  qubits w !! self = Some obj ->
  pending_commands (builders (snd (Qubit._deactivate self w)) (_conn obj))
  = pending_commands (builders w (_conn obj)).
Proof.
  intros H. rewrite (deactivate_run _ _ _ H). cbn [snd builders].
  case_bool_decide; [|reflexivity].
  rewrite fn_lookup_insert. reflexivity.
Qed.

Lemma init_run w conn add_new_command ent_info virtual_address :
  exists id w3,
    qubits w3 = qubits w
    /\ active_qubits (builders w3 conn) = active_qubits (builders w conn)
    /\ Qubit.__init__ conn add_new_command ent_info virtual_address w
       = (inr (length (qubits w)),
          {| qubits :=
               <[length (qubits w) := mkQubit conn id true ent_info None]>
                 (qubits w ++ [mkQubit conn id false ent_info None]);
             builders :=
               if bool_decide
                    (length (qubits w) ∈ active_qubits (builders w3 conn))
               then builders w3
               else <[conn :=
                        set_active_qubits
                          (active_qubits (builders w3 conn)
                           ++ [length (qubits w)])
                          (builders w3 conn)]> (builders w3) |}).
Proof.
  unfold Qubit.__init__.
  rewrite bind_run.
  set (w0 := match virtual_address with
             | Some v => mret v
             | None => builder_call conn new_qubit_id
             end w).
  assert (H0 : exists id w1, w0 = (inr id, w1) /\ qubits w1 = qubits w
               /\ active_qubits (builders w1 conn)
                  = active_qubits (builders w conn)).
  { subst w0. destruct virtual_address.
    - rewrite ret_run. eauto.
    - rewrite builder_call_run. do 2 eexists. split; [reflexivity|].
      cbn [qubits builders]. rewrite fn_lookup_insert. auto. }
  destruct H0 as (id & w1 & -> & Hq1 & Hb1).
  rewrite bind_run.
  set (w2 := (if add_new_command
              then builder_do conn (add_new_qubit_commands id)
              else mret ()) w1).
  assert (H2 : exists w3, w2 = (inr (), w3) /\ qubits w3 = qubits w
               /\ active_qubits (builders w3 conn)
                  = active_qubits (builders w conn)).
  { subst w2. destruct add_new_command.
    - rewrite builder_do_run. eexists. split; [reflexivity|].
      cbn [qubits builders]. rewrite fn_lookup_insert. auto.
    - rewrite ret_run. eauto. }
  destruct H2 as (w3 & -> & Hq3 & Hb3).
  exists id, w3. split; [assumption|]. split; [assumption|].
  rewrite bind_run. unfold alloc_qubit.
  rewrite bind_run.
  erewrite activate_run
    by (cbn [qubits]; apply list_lookup_middle; reflexivity).
  rewrite ret_run. cbn [qubits builders _conn]. rewrite Hq3. reflexivity.
Qed.

(** [Qubit(conn, ...)] returns a new handle, active and in the list of its
    connection. *)
Lemma init_registers w conn add_new_command ent_info virtual_address :
  let r := Qubit.__init__ conn add_new_command ent_info virtual_address w in
  fst r = inr (length (qubits w))
  /\ (exists obj, qubits (snd r) !! length (qubits w) = Some obj
                  /\ _conn obj = conn /\ _active obj = true)
  /\ length (qubits w) ∈ active_qubits (builders (snd r) conn).
Proof.
  intros r. subst r.
  destruct (init_run w conn add_new_command ent_info virtual_address)
    as (id & w3 & Hq3 & Hb3 & ->).
  cbn [fst snd qubits builders]. split; [reflexivity|]. split.
  - exists (mkQubit conn id true ent_info None).
    split; [|split; reflexivity].
    apply list_lookup_insert_eq. rewrite length_app. simpl. lia.
  - case_bool_decide; [assumption|].
    rewrite fn_lookup_insert. simpl.
    rewrite elem_of_app, list_elem_of_singleton. auto.
Qed.

Lemma NoDup_count_occ_1 (l : list nat) x :
  NoDup l -> x ∈ l -> count_occ Nat.eq_dec l x = 1.
Proof.
  induction 1 as [|z l Hz Hnd IH]; intros Hin; [inversion Hin|].
  apply elem_of_cons in Hin. simpl.
  destruct (Nat.eq_dec z x) as [->|Hne].
  - f_equal. apply count_occ_not_In. rewrite <- list_elem_of_In. exact Hz.
  - destruct Hin as [->|Hin]; [congruence|auto].
Qed.

(** ** What the assertion of [test_futures] demands *)

Lemma spec_match_offset pattern cmds :
  spec_match pattern cmds = true ->
  exists k, spec_match_here pattern (drop k cmds) = true.
Proof.
  induction cmds as [|c rest IH]; cbn [spec_match]; intros H;
    apply orb_true_iff in H as [H|H]; try discriminate;
    try (exists 0; exact H).
  destruct (IH H) as [k Hk]. exists (Datatypes.S k). exact Hk.
Qed.



(** The subroutine that [test_simple] builds passes its five assertions. *)
Lemma test_simple_passes :
  let inspector :=
    inspector
      (pending_commands (builders (snd (test_simple_program empty_world)) 0))
  in
  contains_instr inspector GenericInstr.QALLOC = true
  /\ contains_instr inspector GenericInstr.SET = true
  /\ contains_instr inspector GenericInstr.ROT_X = false
  /\ match_pattern inspector
       [PInstr GenericInstr.QALLOC; PInstr GenericInstr.INIT;
        PInstr GenericInstr.SET] = Some (inr true)
  /\ match_pattern inspector
       [PInstr GenericInstr.H; PWild ANY_ONE; PInstr GenericInstr.X]
     = Some (inr true).
Proof. vm_compute. repeat split. Qed.

(** The subroutine that [test_futures] builds passes its assertion. *)
Lemma test_futures_passes :
  match_pattern
    (inspector
       (pending_commands (builders (snd (test_futures_program empty_world)) 0)))
    test_futures_pattern
  = Some (inr true).
Proof. vm_compute. reflexivity. Qed.

(** With the [STORE] before the [QFREE], as the sentence of section 4.2
    has it, the assertion of [test_futures] fails on the same program. *)
Lemma test_futures_fails_with_store_first :
  let w := snd (Qubit.__init__ 0 true None None empty_world) in
  let b := add_measure_commands_sec42 0 (Future 0 0) false
             (snd (new_array 1 (builders w 0))) in
  let w1 := {| qubits := qubits w; builders := <[0 := b]> (builders w) |} in
  let w2 :=
    snd ((if_ne 0 (Future 0 0) 0 (Qubit.__init__ 0 true None None;; mret ());;
          if_ez 0 (Future 0 0) (Qubit.__init__ 0 true None None;; mret ()))
           w1) in
  match_pattern (inspector (pending_commands (builders w2 0)))
    test_futures_pattern
  = Some (inr false).
Proof. vm_compute. reflexivity. Qed.

(** ** The claims on the qubit handle *)

(** C2.  The gate methods do not check the [active] flag.  After
    [q = Qubit(conn); q.measure()] the handle is not active; [q.X()] then
    returns without an exception and adds [SET; X] to the pending
    subroutine, and so do [H], [rot_X] and [cnot]; of the methods called
    here only [measure] raises [QubitNotActiveError]. *)
Theorem gate_on_inactive_qubit_does_not_raise :
  let w := run_calls [CallInit 0 true None None;
                      CallMeasure 0 None false true] empty_world in
  fst (Qubit.active 0 w) = inr false
  /\ fst (Qubit.X 0 w) = inr ()
  /\ map opcode (pending_commands (builders (snd (Qubit.X 0 w)) 0))
     = map opcode (pending_commands (builders w 0))
       ++ [Some GenericInstr.SET; Some GenericInstr.X]
  /\ fst (Qubit.H 0 w) = inr ()
  /\ fst (Qubit.rot_X 0 1 2 w) = inr ()
  /\ fst (Qubit.cnot 0 0 w) = inr ()
  /\ fst (Qubit.measure 0 None false true w) = inl (QubitNotActiveError 0).
Proof. vm_compute. repeat split. Qed.

(** C4.  [free] does not deactivate the handle.  After
    [q = Qubit(conn); q.free()] the [QFREE] is in the pending subroutine,
    the handle is still active, and it is still in the active-qubit list
    of the builder. *)
Theorem free_keeps_handle_active :
  let w := run_calls [CallInit 0 true None None] empty_world in
  let w' := snd (Qubit.free 0 w) in
  fst (Qubit.free 0 w) = inr ()
  /\ map opcode (pending_commands (builders w' 0))
     = map opcode (pending_commands (builders w 0))
       ++ [Some GenericInstr.QFREE]
  /\ fst (Qubit.active 0 w') = inr true
  /\ active_qubits (builders w' 0) = [0].
Proof. vm_compute. repeat split. Qed.

(** C5.  In a world reached by calls on qubit handles, take an active
    handle.  [measure(inplace=False)]: when the lowering is done, the
    [MEAS], [QFREE] and [STORE] are in the pending subroutine and the
    handle is still active and in the active-qubit list; the setter
    [active = False] runs on that world, after which the flag is false,
    the handle is not in the list and the pending subroutine is the
    same.  [measure(inplace=True)] leaves the handle active and in the
    list. *)
Theorem measure_deactivates_after_lowering
  (calls : list Call) (self : nat) (obj : Qubit)
  (future : option AnyFuture) (store_array : bool) :
  let w := run_calls calls empty_world in
  qubits w !! self = Some obj ->
  _active obj = true ->
  (exists fut w1 w',
     Qubit.measure_lowering self future false store_array w = (inr fut, w1)
     /\ qubits w1 !! self = Some obj
     /\ self ∈ active_qubits (builders w1 (_conn obj))
     /\ (exists pre,
           map opcode (pending_commands (builders w1 (_conn obj)))
           = pre ++ [Some GenericInstr.MEAS; Some GenericInstr.QFREE;
                     Some GenericInstr.STORE])
     /\ Qubit.measure self future false store_array w = (inr fut, w')
     /\ w' = snd (Qubit.active_setter self false w1)
     /\ qubits w' !! self = Some (set_active_field obj false)
     /\ (self ∉ active_qubits (builders w' (_conn obj)))
     /\ pending_commands (builders w' (_conn obj))
        = pending_commands (builders w1 (_conn obj)))
  /\ (exists fut w',
        Qubit.measure self future true store_array w = (inr fut, w')
        /\ qubits w' !! self = Some obj
        /\ self ∈ active_qubits (builders w' (_conn obj))).
Proof.
  intros w Hself Hact.
  assert (Hreg : registered w)
    by (apply registered_run_calls, registered_empty).
  destruct (Hreg (_conn obj)) as [Hnd Hiff].
  assert (Hin : self ∈ active_qubits (builders w (_conn obj)))
    by (apply Hiff; eauto).
  assert (Hlt : self < length (qubits w)) by (eapply lookup_lt_Some; eauto).
  split.
  - destruct (measure_lowering_run w self obj future false store_array
                Hself Hact) as (w1 & Hlow & Hq1 & Hb1 & _).
    assert (Hself1 : qubits w1 !! self = Some obj)
      by (rewrite Hq1; exact Hself).
    assert (Hl1 : active_qubits (builders w1 (_conn obj))
                  = active_qubits (builders w (_conn obj)))
      by (rewrite Hb1; apply active_qubits_measure).
    pose proof (measure_run _ _ _ _ _ _ _ _ Hself1 Hact Hlow) as Hm.
    cbv iota in Hm.
    assert (Hset : snd (Qubit.active_setter self false w1)
                   = snd (Qubit._deactivate self w1)).
    { rewrite (active_setter_run _ _ _ _ Hself1).
      case_bool_decide; [congruence|reflexivity]. }
    do 3 eexists. split; [exact Hlow|].
    split; [exact Hself1|]. split; [rewrite Hl1; exact Hin|].
    split.
    { rewrite Hb1, opcodes_add_measure_commands. eexists. reflexivity. }
    split; [exact Hm|]. split; [symmetry; exact Hset|].
    split; [|split].
    + rewrite (deactivate_run _ _ _ Hself1). cbn [snd qubits].
      apply list_lookup_insert_eq. rewrite Hq1. exact Hlt.
    + rewrite (deactivate_run _ _ _ Hself1). cbn [snd builders].
      rewrite Hl1. case_bool_decide; [|contradiction].
      rewrite fn_lookup_insert. simpl.
      apply NoDup_list_remove, Hnd.
    + apply deactivate_keeps_commands, Hself1.
  - destruct (measure_lowering_run w self obj future true store_array
                Hself Hact) as (w1 & Hlow & Hq1 & Hb1 & _).
    assert (Hself1 : qubits w1 !! self = Some obj)
      by (rewrite Hq1; exact Hself).
    do 2 eexists.
    split; [apply (measure_run _ _ _ _ _ _ _ _ Hself1 Hact Hlow)|].
    cbv iota. split; [exact Hself1|].
    rewrite Hb1, active_qubits_measure. exact Hin.
Qed.

Lemma measure_deactivates_after_lowering_witness :
  let w := run_calls [CallInit 0 true None None] empty_world in
  (exists fut w1 w',
     Qubit.measure_lowering 0 None false true w = (inr fut, w1)
     /\ qubits w1 !! 0 = Some (mkQubit 0 0 true None None)
     /\ 0 ∈ active_qubits (builders w1 0)
     /\ (exists pre,
           map opcode (pending_commands (builders w1 0))
           = pre ++ [Some GenericInstr.MEAS; Some GenericInstr.QFREE;
                     Some GenericInstr.STORE])
     /\ Qubit.measure 0 None false true w = (inr fut, w')
     /\ w' = snd (Qubit.active_setter 0 false w1)
     /\ qubits w' !! 0 = Some (mkQubit 0 0 false None None)
     /\ (0 ∉ active_qubits (builders w' 0))
     /\ pending_commands (builders w' 0) = pending_commands (builders w1 0))
  /\ (exists fut w',
        Qubit.measure 0 None true true w = (inr fut, w')
        /\ qubits w' !! 0 = Some (mkQubit 0 0 true None None)
        /\ 0 ∈ active_qubits (builders w' 0)).
Proof.
  intros w.
  apply (measure_deactivates_after_lowering
           [CallInit 0 true None None] 0 (mkQubit 0 0 true None None)
           None true); reflexivity.
Defined.

(** C6.  Take the world after any sequence of calls on qubit handles
    (construction, the [active] setter, [_activate], [_deactivate], the
    [qubit_id] setter, [measure], the gates, [reset], [free]), started
    without qubits.  Every qubit whose [active] flag is true occurs
    exactly once in the active-qubit list of the builder of its
    connection.  Construction registers: [Qubit(conn, ...)] returns a
    handle whose object is active and which occurs exactly once in the
    list of [conn].  Activation does not duplicate: after [active = True],
    and after [_activate] called twice, the qubit is active and its
    handle occurs exactly once in the list. *)
Theorem active_qubit_registered_once (calls : list Call) :
  let w := run_calls calls empty_world in
  (forall q obj,
     qubits w !! q = Some obj ->
     _active obj = true ->
     count_occ Nat.eq_dec (active_qubits (builders w (_conn obj))) q = 1)
  /\ (forall conn add_new_command ent_info virtual_address,
        let r := Qubit.__init__ conn add_new_command ent_info
                   virtual_address w in
        fst r = inr (length (qubits w))
        /\ (exists obj,
              qubits (snd r) !! length (qubits w) = Some obj
              /\ _conn obj = conn /\ _active obj = true)
        /\ count_occ Nat.eq_dec (active_qubits (builders (snd r) conn))
             (length (qubits w)) = 1)
  /\ (forall self obj,
        qubits w !! self = Some obj ->
        let w' := snd (Qubit.active_setter self true w) in
        (exists obj', qubits w' !! self = Some obj'
                      /\ _conn obj' = _conn obj /\ _active obj' = true)
        /\ count_occ Nat.eq_dec (active_qubits (builders w' (_conn obj)))
             self = 1)
  /\ (forall self obj,
        qubits w !! self = Some obj ->
        let w' := snd (Qubit._activate self
                         (snd (Qubit._activate self w))) in
        (exists obj', qubits w' !! self = Some obj'
                      /\ _conn obj' = _conn obj /\ _active obj' = true)
        /\ count_occ Nat.eq_dec (active_qubits (builders w' (_conn obj)))
             self = 1).
Proof.
  intros w.
  assert (Hreg : registered w)
    by (apply registered_run_calls, registered_empty).
  assert (Hcount : forall w0 q obj,
            registered w0 -> qubits w0 !! q = Some obj ->
            _active obj = true ->
            count_occ Nat.eq_dec (active_qubits (builders w0 (_conn obj))) q
            = 1).
  { intros w0 q obj Hreg0 Hq Hact. destruct (Hreg0 (_conn obj)) as [Hnd Hiff].
    apply NoDup_count_occ_1; [exact Hnd|]. apply Hiff. eauto. }
  assert (Hactivate : forall w0 self obj,
            qubits w0 !! self = Some obj ->
            qubits (snd (Qubit._activate self w0)) !! self
            = Some (set_active_field obj true)).
  { intros w0 self obj Hself. rewrite (activate_run _ _ _ Hself).
    cbn [snd qubits]. apply list_lookup_insert_eq.
    eapply lookup_lt_Some; eauto. }
  split; [|split; [|split]].
  - intros q obj Hq Hact. apply Hcount; assumption.
  - intros conn add_new_command ent_info virtual_address r. subst r.
    pose proof (preserves_init conn add_new_command ent_info virtual_address
                  w Hreg) as Hreg'.
    destruct (init_registers w conn add_new_command ent_info virtual_address)
      as (Hfst & (obj & Hobj & Hconn & Hact) & _).
    split; [exact Hfst|]. split; [eauto|].
    pose proof (Hcount _ _ _ Hreg' Hobj Hact) as Hone.
    rewrite Hconn in Hone. exact Hone.
  - intros self obj Hself w'. subst w'.
    pose proof (preserves_active_setter self true w Hreg) as Hreg'.
    assert (Hobj : exists obj',
              qubits (snd (Qubit.active_setter self true w)) !! self
              = Some obj'
              /\ _conn obj' = _conn obj /\ _active obj' = true).
    { rewrite (active_setter_run _ _ _ _ Hself). case_bool_decide as Hb.
      - exists obj. auto.
      - exists (set_active_field obj true).
        split; [apply Hactivate, Hself|]. split; reflexivity. }
    split; [exact Hobj|]. destruct Hobj as (obj' & Hobj' & Hconn & Hact).
    pose proof (Hcount _ _ _ Hreg' Hobj' Hact) as Hone.
    rewrite Hconn in Hone. exact Hone.
  - intros self obj Hself w'. subst w'.
    pose proof (preserves_activate self _
                  (preserves_activate self w Hreg)) as Hreg'.
    pose proof (Hactivate _ _ _ (Hactivate _ _ _ Hself)) as Hobj'.
    split; [eexists; split; [exact Hobj'|split; reflexivity]|].
    apply (Hcount _ _ _ Hreg' Hobj'). reflexivity.
Qed.

Lemma active_qubit_registered_once_witness :
  let w := run_calls [CallInit 0 true None None] empty_world in
  count_occ Nat.eq_dec (active_qubits (builders w 0)) 0 = 1
  /\ (let r := Qubit.__init__ 0 true None None w in
      fst r = inr 1
      /\ (exists obj, qubits (snd r) !! 1 = Some obj
                      /\ _conn obj = 0 /\ _active obj = true)
      /\ count_occ Nat.eq_dec (active_qubits (builders (snd r) 0)) 1 = 1)
  /\ (let w' := snd (Qubit.active_setter 0 true w) in
      (exists obj', qubits w' !! 0 = Some obj'
                    /\ _conn obj' = 0 /\ _active obj' = true)
      /\ count_occ Nat.eq_dec (active_qubits (builders w' 0)) 0 = 1).
Proof.
  intros w.
  destruct (active_qubit_registered_once [CallInit 0 true None None])
    as (Hall & Hinit & Hset & _).
  split; [|split].
  - apply (Hall 0 (mkQubit 0 0 true None None)); reflexivity.
  - apply (Hinit 0 true None None).
  - apply (Hset 0 (mkQubit 0 0 true None None)). reflexivity.
Defined.

(** C9.  The setter of [active] does nothing when the flag already has
    the value assigned: the world is the same.  On a handle whose flag is
    false, [active = True] returns without an exception, sets the flag,
    and the handle is then in the active-qubit list of its builder, put
    at its end if it was not in it. *)
Theorem active_setter_idempotent_permissive
  (w : World) (self : nat) (obj : Qubit) (b : bool) :
  qubits w !! self = Some obj ->
  (_active obj = b -> Qubit.active_setter self b w = (inr (), w))
  /\ (_active obj = false ->
      let w' := snd (Qubit.active_setter self true w) in
      fst (Qubit.active_setter self true w) = inr ()
      /\ qubits w' !! self = Some (set_active_field obj true)
      /\ self ∈ active_qubits (builders w' (_conn obj))
      /\ (self ∉ active_qubits (builders w (_conn obj)) ->
          active_qubits (builders w' (_conn obj))
          = active_qubits (builders w (_conn obj)) ++ [self])).
Proof.
  intros Hself.
  assert (Hlt : self < length (qubits w)) by (eapply lookup_lt_Some; eauto).
  split.
  - intros Hb. rewrite (active_setter_run _ _ _ _ Hself).
    case_bool_decide; [reflexivity|contradiction].
  - intros Hact w'. subst w'.
    rewrite (active_setter_run _ _ _ _ Hself).
    case_bool_decide; [congruence|].
    rewrite (activate_run _ _ _ Hself). cbn [fst snd qubits builders].
    split; [reflexivity|].
    split; [apply list_lookup_insert_eq; exact Hlt|].
    case_bool_decide as Hin.
    + split; [exact Hin|contradiction].
    + rewrite fn_lookup_insert. simpl.
      split; [|reflexivity].
      rewrite elem_of_app, list_elem_of_singleton. auto.
Qed.

Lemma active_setter_idempotent_permissive_witness :
  let w := run_calls [CallInit 0 true None None;
                      CallMeasure 0 None false true] empty_world in
  (false = false -> Qubit.active_setter 0 false w = (inr (), w))
  /\ (false = false ->
      let w' := snd (Qubit.active_setter 0 true w) in
      fst (Qubit.active_setter 0 true w) = inr ()
      /\ qubits w' !! 0 = Some (mkQubit 0 0 true None None)
      /\ 0 ∈ active_qubits (builders w' 0)
      /\ (0 ∉ active_qubits (builders w 0) ->
          active_qubits (builders w' 0) = active_qubits (builders w 0) ++ [0])).
Proof.
  intros w.
  apply (active_setter_idempotent_permissive w 0
           (mkQubit 0 0 false None None) false); reflexivity.
Defined.

(* ================================================================= *)
(** * Further properties of the pattern matcher *)

(** X1.  When [match_pattern] answers [True], the pattern is there: from
    some offset [k] of the command list it matches consecutively. *)
Theorem match_pattern_true_has_offset (cmds : list Cmd) (pattern : list Pat) :
  match_pattern (inspector cmds) pattern = Some (inr true) ->
  exists k, k <= length cmds
            /\ spec_match_here pattern (drop k cmds) = true.
Proof.
  rewrite match_pattern_scan. intros [= H].
  assert (Hs : spec_match pattern cmds = true).
  { destruct (scan_sound pattern cmds 0 H) as [Hh|Hl]; [|exact Hl].
    rewrite drop_0 in Hh. apply spec_match_here_spec_match, Hh. }
  clear H. induction cmds as [|c rest IH]; cbn [spec_match] in Hs;
    apply orb_true_iff in Hs as [Hs|Hs]; try discriminate;
    try (exists 0; split; [lia|exact Hs]).
  destruct (IH Hs) as (k & Hk & Hm).
  exists (Datatypes.S k). split; [simpl; lia|exact Hm].
Qed.

Lemma match_pattern_true_has_offset_witness :
  exists k, k <= 3
            /\ spec_match_here [PInstr GenericInstr.H; PWild ANY_ONE]
                 (drop k [ins GenericInstr.X; ins GenericInstr.H;
                          ins GenericInstr.SET]) = true.
Proof.
  apply (match_pattern_true_has_offset
           [ins GenericInstr.X; ins GenericInstr.H; ins GenericInstr.SET]
           [PInstr GenericInstr.H; PWild ANY_ONE]).
  reflexivity.
Defined.

Lemma advance_outcome pattern i c :
  i < length pattern ->
  match advance pattern i c with
  | inl (AssertionError msg) => msg ∈ wildcard_messages
  | inl _ => False
  | inr i' => i' <= length pattern
  end.
Proof.
  intros Hi.
  destruct (advance pattern i c) as [e|i'] eqn:Hadv;
    [|eapply advance_bound; eauto].
  revert Hadv. unfold advance, wildcard_messages.
  destruct (pattern !! i) as [[p|[| |]]|] eqn:Hp; try discriminate.
  - repeat case_bool_decide; cbn [negb];
      try (intros [= <-]; rewrite !elem_of_cons; auto).
    destruct (pattern !! (i + 1)) as [[q|[| |]]|] eqn:Hq;
      try discriminate; try (intros [= <-]; rewrite !elem_of_cons; auto).
    apply lookup_ge_None in Hq. lia.
  - apply lookup_ge_None in Hp. lia.
Qed.

Lemma scan_outcome pattern cmds : forall i,
  i <= length pattern -> wildcard_outcome (scan pattern i cmds).
Proof.
  induction cmds as [|c rest IH]; intros i Hi; cbn [scan];
    destruct (decide (i = length pattern)) as [->|Hne]; try exact I.
  pose proof (advance_outcome pattern i c ltac:(lia)) as H.
  destruct (advance pattern i c) as [[msg| | |]|i']; try contradiction.
  - exact H.
  - apply IH, H.
Qed.

(** X2.  For every command list and every pattern [match_pattern] ends
    with a boolean or with an [AssertionError] of
    [_match_any_zero_or_more]: no subscript is out of range, and the
    [assert isinstance(pat, GenericInstr)] of [_match_instr] and the two
    [assert False] never fail. *)
Theorem match_pattern_outcomes (cmds : list Cmd) (pattern : list Pat) :
  exists r, match_pattern (inspector cmds) pattern = Some r
            /\ wildcard_outcome r.
Proof.
  rewrite match_pattern_scan. eexists. split; [reflexivity|].
  apply scan_outcome. lia.
Qed.

(** X3.  The empty pattern is found in every command list, and in an
    empty command list no other pattern is found: the answer is [False]
    whatever the pattern holds, refused wildcards included. *)
Theorem match_pattern_empty_cases
  (cmds : list Cmd) (p : Pat) (pattern : list Pat) :
  match_pattern (inspector cmds) [] = Some (inr true)
  /\ match_pattern (inspector []) (p :: pattern) = Some (inr false).
Proof.
  rewrite !match_pattern_scan. split; [|reflexivity].
  destruct cmds; reflexivity.
Qed.

Lemma scan_start_message pattern cmds : forall i,
  scan pattern i cmds
  = inl (AssertionError "wildcard at start of pattern not allowed") ->
  pattern !! 0 = Some (PWild ANY_ZERO_OR_MORE).
Proof.
  induction cmds as [|c rest IH]; intros i; cbn [scan];
    destruct (decide (i = length pattern)); try discriminate.
  destruct (advance pattern i c) as [e|i'] eqn:Hadv; [|apply IH].
  intros [= ->]. revert Hadv. unfold advance.
  destruct (pattern !! i) as [[p|[| |]]|] eqn:Hp; try discriminate.
  case_bool_decide as H0; cbn [negb].
  - case_bool_decide; cbn [negb]; [|discriminate].
    destruct (pattern !! (i + 1)) as [[q|[| |]]|]; discriminate.
  - intros _. replace i with 0 in Hp by lia. exact Hp.
Qed.

(** X4.  [match_pattern] raises "wildcard at start of pattern not
    allowed" exactly when the pattern begins with [ANY_ZERO_OR_MORE] and
    there is a command to look at. *)
Theorem wildcard_at_start_raises_iff (cmds : list Cmd) (pattern : list Pat) :
  match_pattern (inspector cmds) pattern
  = Some (inl (AssertionError "wildcard at start of pattern not allowed"))
  <-> pattern !! 0 = Some (PWild ANY_ZERO_OR_MORE) /\ cmds <> [].
Proof.
  rewrite match_pattern_scan. split.
  - intros [= H]. split; [eapply scan_start_message; eauto|].
    intros ->. cbn in H. case_decide; discriminate.
  - intros [Hp Hc]. destruct pattern as [|[|[| |]] pattern];
      try discriminate.
    destruct cmds as [|c cmds]; [contradiction|]. reflexivity.
Qed.

Lemma scan_app pattern extra cmds : forall i,
  scan pattern i cmds <> inr false ->
  scan pattern i (cmds ++ extra) = scan pattern i cmds.
Proof.
  induction cmds as [|c rest IH]; intros i.
  - cbn [scan app]. destruct (decide (i = length pattern)) as [->|];
      [intros _; apply scan_at_end|congruence].
  - cbn [scan app]. destruct (decide (i = length pattern)); [reflexivity|].
    destruct (advance pattern i c); [reflexivity|apply IH].
Qed.

(** X5.  An answer other than [False] stands when commands are added at
    the end: a pattern that is found stays found, and an assertion that
    is raised is raised again. *)
Theorem match_pattern_append
  (cmds extra : list Cmd) (pattern : list Pat) (r : Exn + bool) :
  match_pattern (inspector cmds) pattern = Some r ->
  r <> inr false ->
  match_pattern (inspector (cmds ++ extra)) pattern = Some r.
Proof.
  rewrite !match_pattern_scan. intros [= <-] Hr.
  rewrite scan_app by exact Hr. reflexivity.
Qed.

Lemma match_pattern_append_witness :
  match_pattern
    (inspector ([ins GenericInstr.X; ins GenericInstr.H]
                ++ [ins GenericInstr.MEAS]))
    [PInstr GenericInstr.X; PInstr GenericInstr.H] = Some (inr true).
Proof.
  apply (match_pattern_append
           [ins GenericInstr.X; ins GenericInstr.H] [ins GenericInstr.MEAS]
           [PInstr GenericInstr.X; PInstr GenericInstr.H] (inr true));
    [reflexivity|discriminate].
Defined.

Lemma item_matches_by_opcode p c1 c2 :
  opcode c1 = opcode c2 -> item_matches p c1 = item_matches p c2.
Proof.
  destruct c1 as [cmd1|l1], c2 as [cmd2|l2]; simpl; try discriminate;
    intros H; destruct p as [i|[| |]]; simpl; try reflexivity.
  injection H as ->. reflexivity.
Qed.

Lemma advance_by_opcode pattern i c1 c2 :
  opcode c1 = opcode c2 -> advance pattern i c1 = advance pattern i c2.
Proof.
  intros H. unfold advance.
  destruct (pattern !! i) as [[p|[| |]]|]; try reflexivity;
    rewrite ?(item_matches_by_opcode _ c1 c2 H); try reflexivity.
  repeat case_bool_decide; cbn [negb]; try reflexivity.
  destruct (pattern !! (i + 1)) as [[q|[| |]]|]; try reflexivity;
    rewrite (item_matches_by_opcode _ c1 c2 H); reflexivity.
Qed.

Lemma scan_by_opcode pattern cmds1 : forall cmds2 i,
  map opcode cmds1 = map opcode cmds2 ->
  scan pattern i cmds1 = scan pattern i cmds2.
Proof.
  induction cmds1 as [|c1 rest1 IH]; intros [|c2 rest2] i; simpl;
    try discriminate; try reflexivity.
  intros [= Hc Hrest]. case_decide; [reflexivity|].
  rewrite (advance_by_opcode _ _ c1 c2 Hc).
  destruct (advance pattern i c2); [reflexivity|]. apply IH, Hrest.
Qed.

Lemma contains_instr_by_opcode op cmds1 : forall cmds2,
  map opcode cmds1 = map opcode cmds2 ->
  contains_instr_loop cmds1 op = contains_instr_loop cmds2 op.
Proof.
  induction cmds1 as [|c1 rest1 IH]; intros [|c2 rest2]; simpl;
    try discriminate; try reflexivity.
  intros [= Hc Hrest].
  change (match c1 with Instr c => Some (instruction c) | Label _ => None end)
    with (opcode c1).
  change (match c2 with Instr c => Some (instruction c) | Label _ => None end)
    with (opcode c2).
  rewrite Hc, (IH rest2 Hrest). reflexivity.
Qed.

(** X6.  The inspector looks at opcodes only: two command lists with the
    same opcodes at the same places (labels at the same places) get the
    same answers from [match_pattern] and from [contains_instr], whatever
    the operands and the label names are. *)
Theorem inspector_reads_opcodes_only
  (cmds1 cmds2 : list Cmd) (pattern : list Pat) (op : GenericInstr.t) :
  map opcode cmds1 = map opcode cmds2 ->
  match_pattern (inspector cmds1) pattern
  = match_pattern (inspector cmds2) pattern
  /\ contains_instr (inspector cmds1) op = contains_instr (inspector cmds2) op.
Proof.
  intros H. rewrite !match_pattern_scan. split.
  - f_equal. apply scan_by_opcode, H.
  - apply contains_instr_by_opcode, H.
Qed.

Lemma inspector_reads_opcodes_only_witness :
  let cmds1 := [icmd GenericInstr.SET [Reg RQ 0; Imm 0];
                Label (mkBranchLabel "IF_EXIT")] in
  let cmds2 := [icmd GenericInstr.SET [Reg RC 3; Imm 7];
                Label (mkBranchLabel "LOOP_EXIT1")] in
  match_pattern (inspector cmds1) [PInstr GenericInstr.SET; PWild BRANCH_LABEL]
  = match_pattern (inspector cmds2)
      [PInstr GenericInstr.SET; PWild BRANCH_LABEL]
  /\ contains_instr (inspector cmds1) GenericInstr.SET
     = contains_instr (inspector cmds2) GenericInstr.SET.
Proof.
  intros cmds1 cmds2.
  apply (inspector_reads_opcodes_only cmds1 cmds2); reflexivity.
Defined.

Lemma valid_pattern_not_refused pattern i :
  valid_pattern pattern = true -> refused_wildcard_at pattern i = false.
Proof.
  intros Hv. destruct (decide (i < length pattern)) as [Hi|Hi].
  - unfold valid_pattern in Hv. rewrite forallb_forall in Hv.
    apply negb_true_iff, Hv, in_seq. lia.
  - unfold refused_wildcard_at. rewrite lookup_ge_None_2 by lia. reflexivity.
Qed.

Lemma spec_match_here_cons p pattern cmds :
  p <> PWild ANY_ZERO_OR_MORE ->
  spec_match_here (p :: pattern) cmds
  = match cmds with
    | [] => false
    | c :: rest => item_matches p c && spec_match_here pattern rest
    end.
Proof. destruct p as [i|[| |]]; intros H; try reflexivity. congruence. Qed.

(** A match from the current pattern index on is carried through. *)
Lemma scan_complete_here pattern cmds : forall i,
  valid_pattern pattern = true ->
  i <= length pattern ->
  spec_match_here (drop i pattern) cmds = true ->
  scan pattern i cmds = inr true.
Proof.
  induction cmds as [|c rest IH]; intros i Hv Hi Hm; cbn [scan];
    destruct (decide (i = length pattern)) as [->|Hne]; try reflexivity;
    pose proof (valid_pattern_not_refused pattern i Hv) as Href;
    unfold refused_wildcard_at in Href;
    (destruct (pattern !! i) as [p|] eqn:Hp;
     [|apply lookup_ge_None in Hp; lia]);
    rewrite (drop_S _ _ _ Hp) in Hm.
  - destruct (decide (p = PWild ANY_ZERO_OR_MORE)) as [->|Hp'];
      [|rewrite spec_match_here_cons in Hm by exact Hp'; discriminate].
    destruct (pattern !! (i + 1)) as [q|] eqn:Hq.
    + replace (i + 1) with (Datatypes.S i) in Hq by lia.
      rewrite (drop_S _ _ _ Hq) in Hm. discriminate.
    + rewrite orb_true_r in Href. discriminate.
  - unfold advance. rewrite Hp.
    destruct (decide (p = PWild ANY_ZERO_OR_MORE)) as [->|Hp'].
    + apply orb_false_iff in Href as [H0 Hnext].
      apply bool_decide_eq_false in H0.
      destruct (pattern !! (i + 1)) as [q|] eqn:Hq; [|discriminate].
      assert (Hq' : pattern !! Datatypes.S i = Some q)
        by (replace (Datatypes.S i) with (i + 1) by lia; exact Hq).
      pose proof (lookup_lt_Some _ _ _ Hq).
      rewrite (drop_S _ _ _ Hq') in Hm. cbn [spec_match_here skip_to] in Hm.
      repeat case_bool_decide; try lia. cbn [negb].
      destruct q as [q|[| |]]; try discriminate;
        (destruct (item_matches _ c) eqn:Hc;
         [apply IH; [exact Hv|lia|];
          replace (i + 2) with (Datatypes.S (Datatypes.S i)) by lia;
          exact Hm
         |apply IH; [exact Hv|lia|];
          rewrite (drop_S _ _ _ Hp), (drop_S _ _ _ Hq'); exact Hm]).
    + rewrite spec_match_here_cons in Hm by exact Hp'.
      apply andb_true_iff in Hm as [Hc Hm].
      pose proof (lookup_lt_Some _ _ _ Hp).
      destruct p as [p|[| |]]; try congruence; rewrite Hc;
        (apply IH; [exact Hv|lia|]);
        replace (i + 1) with (Datatypes.S i) by lia; exact Hm.
Qed.

Lemma scan_skips_preamble pattern p0 pre cmds :
  pattern !! 0 = Some p0 ->
  p0 <> PWild ANY_ZERO_OR_MORE ->
  Forall (fun c => item_matches p0 c = false) pre ->
  scan pattern 0 (pre ++ cmds) = scan pattern 0 cmds.
Proof.
  intros Hp0 Hns. induction 1 as [|c pre Hc Hpre IH]; [reflexivity|].
  cbn [app scan]. pose proof (lookup_lt_Some _ _ _ Hp0).
  destruct (decide (0 = length pattern)); [lia|].
  unfold advance. rewrite Hp0.
  destruct p0 as [p|[| |]]; try congruence; rewrite Hc; exact IH.
Qed.

(** X7.  A pattern without a refused wildcard that matches from some
    offset is found when no command before that offset matches the first
    element of the pattern; in particular a match from offset 0 is always
    found. *)
Theorem match_pattern_finds_first_attempt
  (pre cmds : list Cmd) (p0 : Pat) (pattern : list Pat) :
  valid_pattern (p0 :: pattern) = true ->
  Forall (fun c => item_matches p0 c = false) pre ->
  spec_match_here (p0 :: pattern) cmds = true ->
  match_pattern (inspector (pre ++ cmds)) (p0 :: pattern) = Some (inr true).
Proof.
  intros Hv Hpre Hm. rewrite match_pattern_scan. f_equal.
  assert (Hns : p0 <> PWild ANY_ZERO_OR_MORE).
  { intros ->. pose proof (valid_pattern_not_refused _ 0 Hv) as H.
    discriminate. }
  rewrite (scan_skips_preamble _ p0) by (auto || reflexivity).
  apply scan_complete_here; [exact Hv|lia|exact Hm].
Qed.

Lemma match_pattern_finds_first_attempt_witness :
  match_pattern
    (inspector ([ins GenericInstr.SET; ins GenericInstr.QALLOC]
                ++ [ins GenericInstr.BNE; ins GenericInstr.SET;
                    ins GenericInstr.QALLOC;
                    Label (mkBranchLabel "IF_EXIT")]))
    (PInstr GenericInstr.BNE
     :: [PWild ANY_ZERO_OR_MORE; PWild BRANCH_LABEL])
  = Some (inr true).
Proof.
  apply (match_pattern_finds_first_attempt
           [ins GenericInstr.SET; ins GenericInstr.QALLOC]
           [ins GenericInstr.BNE; ins GenericInstr.SET;
            ins GenericInstr.QALLOC; Label (mkBranchLabel "IF_EXIT")]
           (PInstr GenericInstr.BNE)
           [PWild ANY_ZERO_OR_MORE; PWild BRANCH_LABEL]);
    [reflexivity|repeat constructor|reflexivity].
Defined.

Lemma contains_instr_loop_app op cmds more :
  contains_instr_loop (cmds ++ more) op
  = contains_instr_loop cmds op || contains_instr_loop more op.
Proof.
  induction cmds as [|c rest IH]; [reflexivity|].
  cbn [app contains_instr_loop]. case_decide; [reflexivity|exact IH].
Qed.

Lemma contains_instr_loop_true op cmds :
  contains_instr_loop cmds op = true
  <-> exists cmd, Instr cmd ∈ cmds /\ instruction cmd = op.
Proof.
  induction cmds as [|c rest IH]; cbn [contains_instr_loop].
  - split; [discriminate|]. intros (cmd & H & _). inversion H.
  - case_decide as Hc.
    + split; [intros _|reflexivity].
      destruct c as [cmd|l]; [|discriminate].
      exists cmd. split; [apply list_elem_of_here|congruence].
    + rewrite IH. split.
      * intros (cmd & Hin & Hop). exists cmd.
        split; [apply list_elem_of_further, Hin|exact Hop].
      * intros (cmd & Hin & Hop). apply elem_of_cons in Hin as [Heq|Hin].
        -- subst c. simpl in Hc. congruence.
        -- eauto.
Qed.

(** X8.  [contains_instr(op)] is [True] exactly when some [ICmd] of the
    subroutine has the opcode [op] (a label never counts), and over two
    command lists put one after the other it is the disjunction of the
    answers on each. *)
Theorem contains_instr_membership
  (cmds more : list Cmd) (op : GenericInstr.t) :
  (contains_instr (inspector cmds) op = true
   <-> exists cmd, Instr cmd ∈ cmds /\ instruction cmd = op)
  /\ contains_instr (inspector (cmds ++ more)) op
     = contains_instr (inspector cmds) op
       || contains_instr (inspector more) op.
Proof.
  split; [apply contains_instr_loop_true|apply contains_instr_loop_app].
Qed.

(** ** Patterns whose elements are separated by [ANY_ZERO_OR_MORE] *)

Lemma skip_to_suffix q cmds r :
  skip_to q cmds = Some r -> exists s, cmds = s ++ r.
Proof.
  revert r. induction cmds as [|c rest IH]; intros r; [discriminate|].
  cbn [skip_to]. destruct (item_matches q c).
  - intros [= <-]. exists [c]. reflexivity.
  - intros H. destruct (IH r H) as [s ->]. exists (c :: s). reflexivity.
Qed.

Lemma skip_to_app q pre cmds r :
  skip_to q cmds = Some r ->
  exists pre', skip_to q (pre ++ cmds) = Some (pre' ++ r).
Proof.
  intros H. induction pre as [|c pre IH]; [exists []; exact H|].
  cbn [app skip_to]. destruct (item_matches q c); [|exact IH].
  destruct (skip_to_suffix _ _ _ H) as [s ->].
  exists (pre ++ s). rewrite app_assoc. reflexivity.
Qed.

(** What matches behind a part of the commands matches behind less of
    them. *)
Lemma star_chain_suffix qs : forall pre cmds,
  spec_match_here (star_chain qs) cmds = true ->
  spec_match_here (star_chain qs) (pre ++ cmds) = true.
Proof.
  induction qs as [|q qs IH]; intros pre cmds; [reflexivity|].
  cbn [star_chain spec_match_here].
  destruct (skip_to q cmds) as [r|] eqn:Hr; [|discriminate].
  intros Hm. destruct (skip_to_app q pre cmds r Hr) as [pre' ->].
  apply IH, Hm.
Qed.

Lemma drop_cons_inv {A} (l : list A) i x r :
  drop i l = x :: r -> l !! i = Some x /\ drop (Datatypes.S i) l = r.
Proof.
  intros H. assert (Hx : l !! i = Some x).
  { rewrite <- (Nat.add_0_r i), <- lookup_drop, H. reflexivity. }
  split; [exact Hx|]. rewrite (drop_S _ _ _ Hx) in H. congruence.
Qed.

Lemma advance_at_wildcard pattern i q c :
  0 < i ->
  pattern !! i = Some (PWild ANY_ZERO_OR_MORE) ->
  pattern !! Datatypes.S i = Some q ->
  solid q = true ->
  advance pattern i c = inr (if item_matches q c then i + 2 else i).
Proof.
  intros H0 Hp Hq Hs. pose proof (lookup_lt_Some _ _ _ Hq).
  unfold advance. rewrite Hp.
  repeat case_bool_decide; try lia. cbn [negb].
  replace (i + 1) with (Datatypes.S i) by lia. rewrite Hq.
  destruct q as [q|[| |]]; try discriminate; reflexivity.
Qed.

Lemma scan_star_chain pattern cmds : forall qs i,
  0 < i ->
  i <= length pattern ->
  drop i pattern = star_chain qs ->
  forallb solid qs = true ->
  scan pattern i cmds = inr (spec_match_here (star_chain qs) cmds).
Proof.
  induction cmds as [|c rest IH]; intros qs i H0 Hi Hd Hs; cbn [scan];
    destruct (decide (i = length pattern)) as [->|Hne].
  - rewrite drop_all in Hd. destruct qs; [reflexivity|discriminate].
  - destruct qs as [|q qs]; [|reflexivity].
    apply (f_equal length) in Hd. rewrite length_drop in Hd. simpl in Hd. lia.
  - rewrite drop_all in Hd. destruct qs; [reflexivity|discriminate].
  - destruct qs as [|q qs].
    { apply (f_equal length) in Hd. rewrite length_drop in Hd.
      simpl in Hd. lia. }
    pose proof Hd as Hd0. cbn [star_chain] in Hd.
    apply drop_cons_inv in Hd as [Hp Hd].
    apply drop_cons_inv in Hd as [Hq Hd].
    pose proof Hs as Hs0.
    cbn [forallb] in Hs. apply andb_true_iff in Hs as [Hsq Hs].
    pose proof (lookup_lt_Some _ _ _ Hq).
    rewrite (advance_at_wildcard _ _ q) by assumption.
    cbn [star_chain spec_match_here skip_to].
    destruct (item_matches q c) eqn:Hc.
    + apply IH; [lia|lia| |exact Hs].
      replace (i + 2) with (Datatypes.S (Datatypes.S i)) by lia. exact Hd.
    + rewrite (IH (q :: qs) i) by (assumption || lia). reflexivity.
Qed.

Lemma spec_match_star_chain p0 qs cmds :
  p0 <> PWild ANY_ZERO_OR_MORE ->
  spec_match (p0 :: star_chain qs) cmds = true ->
  spec_match_here (star_chain qs) cmds = true.
Proof.
  intros Hns H. apply spec_match_offset in H as [k Hk].
  rewrite spec_match_here_cons in Hk by exact Hns.
  destruct (drop k cmds) as [|c r] eqn:Hd; [discriminate|].
  apply andb_true_iff in Hk as [_ Hk].
  rewrite <- (take_drop k cmds), Hd.
  change (c :: r) with ([c] ++ r). rewrite app_assoc.
  apply star_chain_suffix, Hk.
Qed.

Lemma scan_first_then_chain p0 qs cmds :
  p0 <> PWild ANY_ZERO_OR_MORE ->
  forallb solid qs = true ->
  scan (p0 :: star_chain qs) 0 cmds
  = inr (spec_match (p0 :: star_chain qs) cmds).
Proof.
  intros Hns Hs. induction cmds as [|c rest IH];
    cbn [scan spec_match]; rewrite spec_match_here_cons by exact Hns;
    (case_decide as H; [simpl in H; lia|]); [reflexivity|].
  assert (Hadv : advance (p0 :: star_chain qs) 0 c
                 = inr (if item_matches p0 c then 1 else 0)).
  { unfold advance. cbn [lookup list_lookup].
    destruct p0 as [p|[| |]]; try congruence; reflexivity. }
  rewrite Hadv. destruct (item_matches p0 c) eqn:Hc; cbn [andb orb];
    [|exact IH].
  rewrite (scan_star_chain _ rest qs);
    [|lia|simpl; lia|reflexivity|exact Hs].
  f_equal.
  destruct (spec_match_here (star_chain qs) rest) eqn:Hh; [reflexivity|].
  destruct (spec_match _ rest) eqn:Hl; [|reflexivity].
  apply spec_match_star_chain in Hl; congruence.
Qed.

(** X9.  On a pattern [p0, *, q1, *, q2, ...] (its first element any
    element but [ANY_ZERO_OR_MORE], every later element a literal opcode
    or [BRANCH_LABEL] behind an [ANY_ZERO_OR_MORE]) [match_pattern] is
    exact: it raises nothing and answers [True] if and only if the
    pattern matches from some offset. *)
Theorem match_pattern_exact_on_star_chain
  (cmds : list Cmd) (p0 : Pat) (qs : list Pat) :
  p0 <> PWild ANY_ZERO_OR_MORE ->
  forallb solid qs = true ->
  match_pattern (inspector cmds) (p0 :: star_chain qs)
  = Some (inr (spec_match (p0 :: star_chain qs) cmds)).
Proof.
  intros Hns Hs. rewrite match_pattern_scan. f_equal.
  apply scan_first_then_chain; assumption.
Qed.

Lemma match_pattern_exact_on_star_chain_witness :
  let cmds := [ins GenericInstr.BNE; ins GenericInstr.BNE;
               ins GenericInstr.SET; Label (mkBranchLabel "IF_EXIT")] in
  let qs := [PInstr GenericInstr.SET; PWild BRANCH_LABEL] in
  match_pattern (inspector cmds) (PInstr GenericInstr.BNE :: star_chain qs)
  = Some (inr (spec_match (PInstr GenericInstr.BNE :: star_chain qs) cmds)).
Proof.
  intros cmds qs.
  apply (match_pattern_exact_on_star_chain cmds (PInstr GenericInstr.BNE) qs);
    [discriminate|reflexivity].
Defined.

(* ================================================================= *)
(** * Further properties of the qubit handle *)

Lemma init_spec (w : World) (conn : nat) (add_new_command : bool)
  (ent_info : option LinkLayerOKTypeK) (virtual_address : option nat) :
  let b0 := builders w conn in
  let id := match virtual_address with
            | Some v => v
            | None => fst (new_qubit_id b0)
            end in
  let b1 := match virtual_address with
            | Some _ => b0
            | None => snd (new_qubit_id b0)
            end in
  let b2 := if add_new_command then add_new_qubit_commands id b1 else b1 in
  let h := length (qubits w) in
  exists w',
    Qubit.__init__ conn add_new_command ent_info virtual_address w
    = (inr h, w')
    /\ qubits w' = qubits w ++ [mkQubit conn id true ent_info None]
    /\ builders w' conn
       = (if bool_decide (h ∈ active_qubits b2) then b2
          else set_active_qubits (active_qubits b2 ++ [h]) b2)
    /\ forall c, c <> conn -> builders w' c = builders w c.
Proof.
  intros b0 id b1 b2 h. unfold Qubit.__init__.
  rewrite bind_run.
  assert (H0 : match virtual_address with
               | Some v => mret v
               | None => builder_call conn new_qubit_id
               end w
               = (inr id,
                  {| qubits := qubits w;
                     builders :=
                       match virtual_address with
                       | Some _ => builders w
                       | None => <[conn := b1]> (builders w)
                       end |})).
  { subst id b1 b0. destruct virtual_address.
    - rewrite ret_run. destruct w; reflexivity.
    - rewrite builder_call_run. reflexivity. }
  rewrite H0. clear H0. rewrite bind_run.
  set (w1 := {| qubits := qubits w; builders := _ |}).
  assert (Hb1 : builders w1 conn = b1).
  { subst w1 b1 b0. cbn [builders]. destruct virtual_address;
      [reflexivity|apply fn_lookup_insert]. }
  assert (Ho1 : forall c, c <> conn -> builders w1 c = builders w c).
  { intros c Hc. subst w1. cbn [builders]. destruct virtual_address;
      [reflexivity|apply fn_lookup_insert_ne; auto]. }
  assert (H1 : (if add_new_command
                then builder_do conn (add_new_qubit_commands id)
                else mret ()) w1
               = (inr (),
                  {| qubits := qubits w;
                     builders :=
                       if add_new_command
                       then <[conn := b2]> (builders w1)
                       else builders w1 |})).
  { subst b2. destruct add_new_command.
    - rewrite builder_do_run, Hb1. reflexivity.
    - rewrite ret_run. reflexivity. }
  rewrite H1. clear H1. rewrite bind_run. unfold alloc_qubit.
  cbn [qubits builders].
  set (w2 := {| qubits := qubits w ++ _; builders := _ |}).
  assert (Hb2 : builders w2 conn = b2).
  { subst w2 b2. cbn [builders]. destruct add_new_command;
      [apply fn_lookup_insert|exact Hb1]. }
  assert (Ho2 : forall c, c <> conn -> builders w2 c = builders w c).
  { intros c Hc. subst w2. cbn [builders]. destruct add_new_command;
      [rewrite fn_lookup_insert_ne by auto|]; apply Ho1, Hc. }
  rewrite bind_run.
  erewrite activate_run
    by (subst w2; cbn [qubits]; apply list_lookup_middle; reflexivity).
  rewrite ret_run. eexists. split; [reflexivity|].
  cbn [qubits builders _conn set_active_field _qubit_id _active _ent_info
       _remote_ent_node].
  split; [|split].
  - subst w2 h. cbn [qubits].
    rewrite <- (Nat.add_0_r (length (qubits w))), insert_app_r. reflexivity.
  - rewrite Hb2. subst w2 h. cbn [qubits].
    case_bool_decide; [exact Hb2|]. apply fn_lookup_insert.
  - intros c Hc. case_bool_decide; [|rewrite fn_lookup_insert_ne by auto];
      apply Ho2, Hc.
Qed.

Lemma registered_handles_valid w c q :
  registered w -> q ∈ active_qubits (builders w c) -> q < length (qubits w).
Proof.
  intros Hreg Hin. apply (Hreg c) in Hin as (obj & Hobj & _).
  eapply lookup_lt_Some; eauto.
Qed.

(** X10.  In a world reached by calls on qubit handles, [Qubit(conn, ...)]
    returns a handle that was not in use; the new object is active, on
    connection [conn], with the given [virtual_address] as its id when
    one is given; the handle is put at the end of the active-qubit list
    of [conn]; the objects that were there and the builders of the other
    connections are as before. *)
Theorem init_appends_new_handle
  (calls : list Call) (conn : nat) (add_new_command : bool)
  (ent_info : option LinkLayerOKTypeK) (virtual_address : option nat) :
  let w := run_calls calls empty_world in
  let r := Qubit.__init__ conn add_new_command ent_info virtual_address w in
  fst r = inr (length (qubits w))
  /\ (exists id,
        qubits (snd r) = qubits w ++ [mkQubit conn id true ent_info None]
        /\ match virtual_address with Some v => id = v | None => True end)
  /\ active_qubits (builders (snd r) conn)
     = active_qubits (builders w conn) ++ [length (qubits w)]
  /\ forall c, c <> conn -> builders (snd r) c = builders w c.
Proof.
  intros w r. subst r.
  assert (Hreg : registered w)
    by (apply registered_run_calls, registered_empty).
  destruct (init_spec w conn add_new_command ent_info virtual_address)
    as (w' & -> & Hq & Hb & Ho).
  cbn [fst snd]. split; [reflexivity|]. split; [|split; [|exact Ho]].
  - eexists. split; [exact Hq|]. destruct virtual_address; reflexivity.
  - assert (Hl : active_qubits
                   (if add_new_command
                    then add_new_qubit_commands
                           match virtual_address with
                           | Some v => v
                           | None => fst (new_qubit_id (builders w conn))
                           end
                           match virtual_address with
                           | Some _ => builders w conn
                           | None => snd (new_qubit_id (builders w conn))
                           end
                    else match virtual_address with
                         | Some _ => builders w conn
                         | None => snd (new_qubit_id (builders w conn))
                         end)
                 = active_qubits (builders w conn))
      by (destruct add_new_command, virtual_address; reflexivity).
    cbv zeta in Hb. rewrite Hl in Hb.
    rewrite bool_decide_eq_false_2 in Hb
      by (intros Hin; apply (registered_handles_valid _ _ _ Hreg) in Hin;
          lia).
    rewrite Hb. reflexivity.
Qed.

(** X11.  [Qubit(conn, add_new_command=False, virtual_address=v)] in a
    world reached by calls: the builder of [conn] is changed in its
    active-qubit list only, which gets the new handle at its end; no
    instruction is emitted and no counter moves. *)
Theorem init_without_commands
  (calls : list Call) (conn v : nat) (ent_info : option LinkLayerOKTypeK) :
  let w := run_calls calls empty_world in
  let r := Qubit.__init__ conn false ent_info (Some v) w in
  fst r = inr (length (qubits w))
  /\ qubits (snd r) = qubits w ++ [mkQubit conn v true ent_info None]
  /\ builders (snd r) conn
     = set_active_qubits
         (active_qubits (builders w conn) ++ [length (qubits w)])
         (builders w conn).
Proof.
  intros w r. subst r.
  assert (Hreg : registered w)
    by (apply registered_run_calls, registered_empty).
  destruct (init_spec w conn false ent_info (Some v))
    as (w' & -> & Hq & Hb & _).
  cbn [fst snd]. split; [reflexivity|]. split; [exact Hq|].
  cbv zeta in Hb.
  rewrite bool_decide_eq_false_2 in Hb
    by (intros Hin; apply (registered_handles_valid _ _ _ Hreg) in Hin; lia).
  exact Hb.
Qed.

(** X12.  [measure] on a handle whose [active] flag is false raises
    [QubitNotActiveError] with the qubit id before anything else happens:
    no array or register is allocated, no instruction is emitted, and the
    world is as it was. *)
Theorem measure_on_inactive_raises
  (w : World) (self : nat) (obj : Qubit) (future : option AnyFuture)
  (inplace store_array : bool) :
  qubits w !! self = Some obj ->
  _active obj = false ->
  Qubit.measure self future inplace store_array w
  = (inl (QubitNotActiveError (_qubit_id obj)), w).
Proof.
  intros Hself Hact. unfold Qubit.measure, Qubit.measure_lowering.
  rewrite !bind_run, (assert_active_run _ _ _ Hself), Hact. reflexivity.
Qed.

Lemma measure_on_inactive_raises_witness :
  let w := run_calls [CallInit 0 true None (Some 5);
                      CallSetActive 0 false] empty_world in
  Qubit.measure 0 None true false w = (inl (QubitNotActiveError 5), w).
Proof.
  intros w.
  apply (measure_on_inactive_raises w 0 (mkQubit 0 5 false None None));
    reflexivity.
Defined.

(** X13.  After [measure(inplace=False)] on an active qubit every further
    [measure] on the handle raises [QubitNotActiveError] and changes
    nothing. *)
Theorem measure_twice_raises
  (w : World) (self : nat) (obj : Qubit) (future future2 : option AnyFuture)
  (store_array inplace2 store_array2 : bool) :
  qubits w !! self = Some obj ->
  _active obj = true ->
  let w1 := snd (Qubit.measure self future false store_array w) in
  (exists fut, fst (Qubit.measure self future false store_array w) = inr fut)
  /\ Qubit.measure self future2 inplace2 store_array2 w1
     = (inl (QubitNotActiveError (_qubit_id obj)), w1).
Proof.
  intros Hself Hact w1. subst w1.
  destruct (measure_lowering_run w self obj future false store_array
              Hself Hact) as (w0 & Hlow & Hq0 & _).
  assert (Hself0 : qubits w0 !! self = Some obj) by (rewrite Hq0; exact Hself).
  rewrite (measure_run _ _ _ _ _ _ _ _ Hself0 Hact Hlow). cbn [fst snd].
  split; [eexists; reflexivity|].
  assert (Hobj1 : qubits (snd (Qubit._deactivate self w0)) !! self
                  = Some (set_active_field obj false)).
  { rewrite (deactivate_run _ _ _ Hself0). cbn [snd qubits].
    apply list_lookup_insert_eq. eapply lookup_lt_Some; eauto. }
  unfold Qubit.measure, Qubit.measure_lowering.
  rewrite !bind_run, (assert_active_run _ _ _ Hobj1). reflexivity.
Qed.

Lemma measure_twice_raises_witness :
  let w := run_calls [CallInit 0 true None None] empty_world in
  let w1 := snd (Qubit.measure 0 None false true w) in
  (exists fut, fst (Qubit.measure 0 None false true w) = inr fut)
  /\ Qubit.measure 0 None true false w1
     = (inl (QubitNotActiveError 0), w1).
Proof.
  intros w.
  apply (measure_twice_raises w 0 (mkQubit 0 0 true None None)
           None None true true false); reflexivity.
Defined.

(** X14.  [_activate] done twice is [_activate] done once: the second
    call finds the flag set and the handle in the list and leaves the
    world as it is. *)
Theorem activate_twice (w : World) (self : nat) :
  Qubit._activate self (snd (Qubit._activate self w))
  = (fst (Qubit._activate self w), snd (Qubit._activate self w)).
Proof.
  destruct (qubits w !! self) as [obj|] eqn:Hself.
  - assert (Hlt : self < length (qubits w))
      by (eapply lookup_lt_Some; eauto).
    rewrite (activate_run _ _ _ Hself). cbn [fst snd].
    destruct (bool_decide (self ∈ active_qubits (builders w (_conn obj))))
      eqn:Hb;
      (erewrite activate_run
         by (cbn [qubits]; apply list_lookup_insert_eq; exact Hlt));
      cbn [qubits builders _conn set_active_field _qubit_id _active
           _ent_info _remote_ent_node];
      rewrite list_insert_insert_eq.
    + rewrite Hb. reflexivity.
    + rewrite bool_decide_eq_true_2; [reflexivity|].
      rewrite fn_lookup_insert. simpl.
      rewrite elem_of_app, list_elem_of_singleton. auto.
  - rewrite (dangling_activate _ _ Hself). cbn [fst snd].
    apply dangling_activate, Hself.
Qed.

Lemma list_remove_then_append x (l : list nat) :
  x ∈ l -> list_remove x l ++ [x] ≡ₚ l.
Proof.
  induction l as [|y l IH]; intros Hin; [inversion Hin|].
  cbn [list_remove]. case_decide as Hy.
  - subst y. symmetry. apply Permutation_cons_append.
  - apply elem_of_cons in Hin as [->|Hin]; [congruence|].
    cbn [app]. f_equiv. apply IH, Hin.
Qed.

(** X15.  In a world reached by calls, [active = False] followed by
    [active = True] on an active qubit gives back the objects as they
    were; in the active-qubit list of its connection the handle has moved
    to the end, the list holding the same handles as before; the other
    builders are untouched. *)
Theorem deactivate_then_activate
  (calls : list Call) (self : nat) (obj : Qubit) :
  let w := run_calls calls empty_world in
  qubits w !! self = Some obj ->
  _active obj = true ->
  let w2 := snd (Qubit.active_setter self true
                   (snd (Qubit.active_setter self false w))) in
  qubits w2 = qubits w
  /\ active_qubits (builders w2 (_conn obj))
     = list_remove self (active_qubits (builders w (_conn obj))) ++ [self]
  /\ active_qubits (builders w2 (_conn obj))
     ≡ₚ active_qubits (builders w (_conn obj))
  /\ forall c, c <> _conn obj -> builders w2 c = builders w c.
Proof.
  intros w Hself Hact w2. subst w2.
  assert (Hreg : registered w)
    by (apply registered_run_calls, registered_empty).
  destruct (Hreg (_conn obj)) as [Hnd Hiff].
  assert (Hin : self ∈ active_qubits (builders w (_conn obj)))
    by (apply Hiff; eauto).
  assert (Hlt : self < length (qubits w)) by (eapply lookup_lt_Some; eauto).
  rewrite (active_setter_run w _ _ _ Hself).
  case_bool_decide; [congruence|].
  rewrite (deactivate_run _ _ _ Hself). cbn [snd].
  rewrite bool_decide_eq_true_2 by exact Hin.
  erewrite active_setter_run
    by (cbn [qubits]; apply list_lookup_insert_eq; exact Hlt).
  cbn [_active set_active_field]. case_bool_decide; [congruence|].
  erewrite activate_run
    by (cbn [qubits]; apply list_lookup_insert_eq; exact Hlt).
  cbn [snd qubits builders _conn set_active_field _qubit_id _active _ent_info
       _remote_ent_node].
  rewrite list_insert_insert_eq, fn_lookup_insert.
  cbn [active_qubits set_active_qubits].
  rewrite bool_decide_eq_false_2
    by (apply NoDup_list_remove, Hnd).
  rewrite fn_lookup_insert. cbn [active_qubits set_active_qubits].
  split; [|split; [reflexivity|split]].
  - apply list_insert_id. rewrite Hself. f_equal.
    clear -Hact. destruct obj as [c i a e r]. simpl in Hact. subst a.
    reflexivity.
  - apply list_remove_then_append, Hin.
  - intros c Hc. rewrite !fn_lookup_insert_ne by auto. reflexivity.
Qed.

Lemma deactivate_then_activate_witness :
  let w := run_calls [CallInit 0 true None None;
                      CallInit 0 true None None] empty_world in
  let w2 := snd (Qubit.active_setter 0 true
                   (snd (Qubit.active_setter 0 false w))) in
  qubits w2 = qubits w
  /\ active_qubits (builders w2 0)
     = list_remove 0 (active_qubits (builders w 0)) ++ [0]
  /\ active_qubits (builders w2 0) ≡ₚ active_qubits (builders w 0)
  /\ forall c, c <> 0 -> builders w2 c = builders w c.
Proof.
  intros w.
  apply (deactivate_then_activate
           [CallInit 0 true None None; CallInit 0 true None None]
           0 (mkQubit 0 0 true None None)); reflexivity.
Defined.

Lemma set_active_qubits_same b :
  set_active_qubits (active_qubits b) b = b.
Proof. destruct b; reflexivity. Qed.

Lemma set_active_field_same obj : set_active_field obj (_active obj) = obj.
Proof. destruct obj; reflexivity. Qed.

(** X16.  The setter of [active] raises nothing on a handle of the store
    and touches nothing but the flag of that object and the active-qubit
    list of its connection: the other fields and objects, the pending
    subroutine and the counters of its builder, and the builders of the
    other connections stay as they are. *)
Theorem active_setter_frame
  (w : World) (self : nat) (obj : Qubit) (b : bool) :
  qubits w !! self = Some obj ->
  let r := Qubit.active_setter self b w in
  fst r = inr ()
  /\ qubits (snd r) = <[self := set_active_field obj b]> (qubits w)
  /\ builders (snd r) (_conn obj)
     = set_active_qubits (active_qubits (builders (snd r) (_conn obj)))
         (builders w (_conn obj))
  /\ forall c, c <> _conn obj -> builders (snd r) c = builders w c.
Proof.
  intros Hself r. subst r. rewrite (active_setter_run _ _ _ _ Hself).
  case_bool_decide as Hb.
  - cbn [fst snd]. split; [reflexivity|]. split; [|split; [|reflexivity]].
    + subst b. rewrite set_active_field_same.
      symmetry. apply list_insert_id, Hself.
    + symmetry. apply set_active_qubits_same.
  - destruct b.
    + rewrite (activate_run _ _ _ Hself). cbn [fst snd qubits builders].
      split; [reflexivity|]. split; [reflexivity|].
      case_bool_decide; (split; [|intros c Hc]).
      * symmetry. apply set_active_qubits_same.
      * reflexivity.
      * rewrite fn_lookup_insert. reflexivity.
      * apply fn_lookup_insert_ne. auto.
    + rewrite (deactivate_run _ _ _ Hself). cbn [fst snd qubits builders].
      split; [reflexivity|]. split; [reflexivity|].
      case_bool_decide; (split; [|intros c Hc]).
      * rewrite fn_lookup_insert. reflexivity.
      * apply fn_lookup_insert_ne. auto.
      * symmetry. apply set_active_qubits_same.
      * reflexivity.
Qed.

Lemma active_setter_frame_witness :
  let w := run_calls [CallInit 0 true None None;
                      CallInit 1 true None None] empty_world in
  let r := Qubit.active_setter 1 false w in
  fst r = inr ()
  /\ qubits (snd r)
     = <[1 := set_active_field (mkQubit 1 0 true None None) false]> (qubits w)
  /\ builders (snd r) 1
     = set_active_qubits (active_qubits (builders (snd r) 1)) (builders w 1)
  /\ forall c, c <> 1 -> builders (snd r) c = builders w c.
Proof.
  intros w.
  apply (active_setter_frame w 1 (mkQubit 1 0 true None None) false).
  reflexivity.
Defined.

Lemma remote_entangled_node_run get_node_name w self obj :
  qubits w !! self = Some obj ->
  Qubit.remote_entangled_node get_node_name self w
  = match _remote_ent_node obj with
    | Some name => (inr (Some name), w)
    | None =>
      match _ent_info obj with
      | None => (inr None, w)
      | Some info =>
        (inr (get_node_name (_conn obj) (remote_node_id info)),
         {| qubits :=
              <[self := {| _conn := _conn obj; _qubit_id := _qubit_id obj;
                           _active := _active obj;
                           _ent_info := _ent_info obj;
                           _remote_ent_node :=
                             get_node_name (_conn obj)
                               (remote_node_id info) |}]> (qubits w);
            builders := builders w |})
      end
    end.
Proof.
  intros H. unfold Qubit.remote_entangled_node, Qubit.entanglement_info.
  rewrite bind_run, (get_qubit_run _ _ _ H).
  destruct (_remote_ent_node obj); [reflexivity|].
  rewrite !bind_run, (get_qubit_run _ _ _ H), ret_run.
  destruct (_ent_info obj); reflexivity.
Qed.

(** X17.  [remote_entangled_node] gives the stored name when there is
    one, [None] when the qubit has no entanglement information, and
    otherwise what the look-up of the remote node id gives, which it
    stores.  Once it has given a name, every later call gives that name,
    whatever the look-up would now say, and changes nothing.  It never
    touches a builder. *)
Theorem remote_entangled_node_caches
  (get_node_name : nat -> nat -> option string)
  (w : World) (self : nat) (obj : Qubit) :
  qubits w !! self = Some obj ->
  let r := Qubit.remote_entangled_node get_node_name self w in
  fst r
  = inr match _remote_ent_node obj with
        | Some name => Some name
        | None =>
          match _ent_info obj with
          | Some info => get_node_name (_conn obj) (remote_node_id info)
          | None => None
          end
        end
  /\ builders (snd r) = builders w
  /\ forall name,
       fst r = inr (Some name) ->
       forall other_names,
         Qubit.remote_entangled_node other_names self (snd r)
         = (inr (Some name), snd r).
Proof.
  intros Hself r. subst r.
  assert (Hlt : self < length (qubits w)) by (eapply lookup_lt_Some; eauto).
  rewrite (remote_entangled_node_run _ _ _ _ Hself).
  destruct (_remote_ent_node obj) as [cached|] eqn:Hcache;
    [|destruct (_ent_info obj) as [info|] eqn:Hinfo];
    cbn [fst snd builders];
    (split; [reflexivity|]); (split; [reflexivity|]);
    intros name Hname other_names; try discriminate;
    injection Hname as Hname.
  - rewrite (remote_entangled_node_run _ _ _ _ Hself), Hcache, Hname.
    reflexivity.
  - erewrite remote_entangled_node_run
      by (cbn [qubits]; apply list_lookup_insert_eq; exact Hlt).
    cbn [_remote_ent_node]. rewrite Hname. reflexivity.
Qed.

Lemma remote_entangled_node_caches_witness :
  let names := fun (conn node_id : nat) =>
                 if decide (node_id = 1) then Some "Bob"%string else None in
  let w := run_calls [CallInit 0 false (Some (mkEntInfo 1)) (Some 0)]
             empty_world in
  let r := Qubit.remote_entangled_node names 0 w in
  fst r = inr (names 0 1)
  /\ builders (snd r) = builders w
  /\ forall name,
       fst r = inr (Some name) ->
       forall other_names,
         Qubit.remote_entangled_node other_names 0 (snd r)
         = (inr (Some name), snd r).
Proof.
  intros names w.
  apply (remote_entangled_node_caches names w 0
           (mkQubit 0 0 true (Some (mkEntInfo 1)) None)).
  reflexivity.
Defined.

(** X18.  After every sequence of calls on qubit handles, started without
    qubits, the active-qubit list of every builder holds no handle twice,
    and every handle in it refers to an object of that connection whose
    [active] flag is true: no handle of a deactivated qubit stays
    behind. *)
Theorem active_list_holds_active_handles (calls : list Call) (c : nat) :
  let w := run_calls calls empty_world in
  NoDup (active_qubits (builders w c))
  /\ forall q, q ∈ active_qubits (builders w c) ->
       exists obj, qubits w !! q = Some obj
                   /\ _conn obj = c /\ _active obj = true.
Proof.
  intros w.
  assert (Hreg : registered w)
    by (apply registered_run_calls, registered_empty).
  destruct (Hreg c) as [Hnd Hiff]. split; [exact Hnd|].
  intros q Hq. apply Hiff, Hq.
Qed.

(* ================================================================= *)
(** * The order of the measurement instructions, from [test_futures]

    [builder.add_measure_commands] is not among the sources.  What the
    sources say about the instructions of a measurement is the assertion
    of [test_futures] on the subroutine built by [q = Qubit(conn);
    m = q.measure(); ...].  Below, [lower] stands for whatever the builder
    emits for that one [measure] call, [pre] and [post] for the rest of
    the subroutine; nothing of the modelled builder is used. *)






